(** * Extension registry and extension status tracker (w3ux library)

    A shallow embedding of the [ExtensionsProvider] React context provider
    (react-connect-kit) and of the static [Extensions] registry
    (extension-assets), with the properties the specification states about
    them.

    Modelling conventions.
    - A JavaScript object used as a dictionary ([Record<string, T>]) is a
      [gmap string T] of its own properties.  The dictionaries are plain
      objects, so [object[key]] looks past the own properties into
      [Object.prototype]: [readProperty] gives the own property, else the
      member inherited under that name, else [undefined].
    - A function that may raise returns a [completion].
    - The provider is a record of its [useState] and [useRef] cells
      together with the two host resources it drives (the interval timer
      and the pending snap probe).  The record describes the provider at
      render boundaries, where a state cell holds the last value given to
      its setter.  Host callbacks are [event]s and [step] runs the handler
      the source attaches to each. *)

From stdpp Require Import gmap strings list fin_maps.
From Stdlib Require Import NArith Lia.

Local Open Scope string_scope.

(** ** JavaScript completions *)

Inductive JsError : Type := TypeError.

Inductive completion (A : Type) : Type :=
| Return (a : A)
| Throw (e : JsError).
Arguments Return {A} a.
Arguments Throw {A} e.

(** ** Property reads on plain objects *)

(** The names a plain object inherits from [Object.prototype]: eleven
    methods and the accessor [__proto__]. *)
Definition objectPrototypeMembers : list string :=
  ["constructor"; "__defineGetter__"; "__defineSetter__"; "hasOwnProperty";
   "__lookupGetter__"; "__lookupSetter__"; "isPrototypeOf";
   "propertyIsEnumerable"; "toString"; "valueOf"; "__proto__";
   "toLocaleString"].

(** What [object[key]] evaluates to: an own property shadows the inherited
    member of the same name. *)
Inductive propertyRead (V : Type) : Type :=
| OwnValue (v : V)
| InheritedMember
| Undefined.
Arguments OwnValue {V} v.
Arguments InheritedMember {V}.
Arguments Undefined {V}.

Definition inherited {V : Type} (key : string) : propertyRead V :=
  if bool_decide (key ∈ objectPrototypeMembers) then InheritedMember else Undefined.

Definition readProperty {V : Type} (object : gmap string V) (key : string)
    : propertyRead V :=
  match object !! key with
  | Some v => OwnValue v
  | None => inherited key
  end.

(** ** The registry ([Extensions], extension-assets) *)

Inductive ExtensionWebsite : Type :=
| Domain (domain : string)
| UrlText (url text : string).

Inductive ExtensionCategory : Type := WebExtension | Hardware.

(** [features] is either the marker ["*"] or an array of feature names. *)
Inductive ExtensionFeature : Type :=
| AllFeatures
| FeatureList (names : list string).

Record ExtensionConfig : Type := mkExtensionConfig {
  title : string;
  website : ExtensionWebsite;
  category : ExtensionCategory;
  features : ExtensionFeature
}.

Definition Extensions : gmap string ExtensionConfig :=
  list_to_map [
    ("enkrypt",
      mkExtensionConfig "Enkrypt" (Domain "enkrypt.com") WebExtension AllFeatures);
    ("fearless-wallet",
      mkExtensionConfig "Fearless Wallet" (Domain "fearlesswallet.io") WebExtension AllFeatures);
    ("metamask-polkadot-snap",
      mkExtensionConfig "MetaMask Polkadot Snap"
        (UrlText "snaps.metamask.io/snap/npm/chainsafe/polkadot-snap" "snaps.metamask.io")
        WebExtension (FeatureList ["getAccounts"; "signer"]));
    ("polkagate",
      mkExtensionConfig "PolkaGate" (Domain "polkagate.xyz") WebExtension AllFeatures);
    ("subwallet-js",
      mkExtensionConfig "SubWallet" (Domain "subwallet.app") WebExtension AllFeatures);
    ("talisman",
      mkExtensionConfig "Talisman" (Domain "talisman.xyz") WebExtension AllFeatures);
    ("polkadot-js",
      mkExtensionConfig "Polkadot JS" (Domain "polkadot.js.org/extension") WebExtension AllFeatures);
    ("nova-wallet",
      mkExtensionConfig "Nova Wallet" (Domain "novawallet.io") WebExtension AllFeatures);
    ("ledger",
      mkExtensionConfig "Ledger" (Domain "ledger.com") Hardware (FeatureList []));
    ("polkadotvault",
      mkExtensionConfig "Polkadot Vault" (Domain "signer.parity.io/") Hardware (FeatureList []));
    ("walletconnect",
      mkExtensionConfig "WalletConnect" (Domain "walletconnect.com") Hardware (FeatureList []))
  ].

(** [Array.prototype.includes] on an array of strings. *)
Definition includes (names : list string) (feature : string) : bool :=
  bool_decide (feature ∈ names).

Section HasFeature.
(** The registry the provider imports as [extensions]. *)
Variable extensions : gmap string ExtensionConfig.

(** [const { features } = extensions[id]] destructures the result of the
    lookup: on [undefined] the destructuring raises a [TypeError].  With
    a descriptor in hand, [features === "*"] short-circuits the [||], so
    [includes] is only ever called on an array.  A member inherited from
    [Object.prototype] has no [features]: the call [features.includes] on
    [undefined] raises a [TypeError] as well, so every identifier that is
    not a key of the registry ends the same way. *)
Definition extensionHasFeature (id feature : string) : completion bool :=
  match extensions !! id with
  | None => Throw TypeError
  | Some config =>
      match features config with
      | AllFeatures => Return true
      | FeatureList names =>
          if includes names feature then Return true else Return false
      end
  end.
End HasFeature.

(** ** The provider's cells ([ExtensionsProvider], react-connect-kit) *)

(** Modelled from the spec: the type [ExtensionStatus] (./types) is not
    among the sources; the specification treats a status as an opaque
    string, with ["installed"] and ["connected"] among its values. *)
Abbreviation ExtensionStatus := string.

(** The [options] prop; both members are optional. *)
Record ProviderOptions : Type := mkOptions {
  chainSafeSnapEnabled : option bool;
  polkagateSnapEnabled : option bool
}.

(** How an awaited promise settles. *)
Inductive settled : Type := Fulfilled | Rejected.

(** The [async] function [handleSnapInjection]: not yet at its [await]
    (no probe issued), suspended at the [await], or past it. *)
Inductive snapPhase : Type :=
| NotIssued
| Awaiting
| Settled (how : settled).

Record tracker : Type := mkTracker {
  checkingInjectedWeb3 : bool;
  checkingInjectedWeb3Ref : bool;
  intervalInitialisedRef : bool;
  extensionsStatus : gmap string ExtensionStatus;
  extensionsStatusRef : gmap string ExtensionStatus;
  polkaGateSnapEnabled : bool;
  (** the timer behind [injectedWeb3Interval] is registered with the host *)
  injectedWeb3Interval : bool;
  injectCounter : nat;
  snapProbe : snapPhase;
  (** milliseconds between the mount and the latest timer-driven event *)
  clock : N
}.

(** *** Setters of the individual cells *)

Definition setCheckingInjectedWeb3 (v : bool) (t : tracker) : tracker :=
  mkTracker v (checkingInjectedWeb3Ref t) (intervalInitialisedRef t)
    (extensionsStatus t) (extensionsStatusRef t) (polkaGateSnapEnabled t)
    (injectedWeb3Interval t) (injectCounter t) (snapProbe t) (clock t).

Definition assignCheckingInjectedWeb3Ref (v : bool) (t : tracker) : tracker :=
  mkTracker (checkingInjectedWeb3 t) v (intervalInitialisedRef t)
    (extensionsStatus t) (extensionsStatusRef t) (polkaGateSnapEnabled t)
    (injectedWeb3Interval t) (injectCounter t) (snapProbe t) (clock t).

Definition assignIntervalInitialisedRef (v : bool) (t : tracker) : tracker :=
  mkTracker (checkingInjectedWeb3 t) (checkingInjectedWeb3Ref t) v
    (extensionsStatus t) (extensionsStatusRef t) (polkaGateSnapEnabled t)
    (injectedWeb3Interval t) (injectCounter t) (snapProbe t) (clock t).

Definition setExtensionsStatus (v : gmap string ExtensionStatus) (t : tracker) : tracker :=
  mkTracker (checkingInjectedWeb3 t) (checkingInjectedWeb3Ref t) (intervalInitialisedRef t)
    v (extensionsStatusRef t) (polkaGateSnapEnabled t)
    (injectedWeb3Interval t) (injectCounter t) (snapProbe t) (clock t).

Definition assignExtensionsStatusRef (v : gmap string ExtensionStatus) (t : tracker) : tracker :=
  mkTracker (checkingInjectedWeb3 t) (checkingInjectedWeb3Ref t) (intervalInitialisedRef t)
    (extensionsStatus t) v (polkaGateSnapEnabled t)
    (injectedWeb3Interval t) (injectCounter t) (snapProbe t) (clock t).

Definition assignInjectedWeb3Interval (v : bool) (t : tracker) : tracker :=
  mkTracker (checkingInjectedWeb3 t) (checkingInjectedWeb3Ref t) (intervalInitialisedRef t)
    (extensionsStatus t) (extensionsStatusRef t) (polkaGateSnapEnabled t)
    v (injectCounter t) (snapProbe t) (clock t).

Definition assignInjectCounter (v : nat) (t : tracker) : tracker :=
  mkTracker (checkingInjectedWeb3 t) (checkingInjectedWeb3Ref t) (intervalInitialisedRef t)
    (extensionsStatus t) (extensionsStatusRef t) (polkaGateSnapEnabled t)
    (injectedWeb3Interval t) v (snapProbe t) (clock t).

Definition assignSnapProbe (v : snapPhase) (t : tracker) : tracker :=
  mkTracker (checkingInjectedWeb3 t) (checkingInjectedWeb3Ref t) (intervalInitialisedRef t)
    (extensionsStatus t) (extensionsStatusRef t) (polkaGateSnapEnabled t)
    (injectedWeb3Interval t) (injectCounter t) v (clock t).

Definition elapse (ms : N) (t : tracker) : tracker :=
  mkTracker (checkingInjectedWeb3 t) (checkingInjectedWeb3Ref t) (intervalInitialisedRef t)
    (extensionsStatus t) (extensionsStatusRef t) (polkaGateSnapEnabled t)
    (injectedWeb3Interval t) (injectCounter t) (snapProbe t) (clock t + ms).

(** [setStateWithRef] (utils): [setState(value); ref.current = value]. *)
Definition setStateWithRef {T : Type} (value : T)
    (setState : T → tracker → tracker) (ref : T → tracker → tracker)
    (t : tracker) : tracker :=
  ref value (setState value t).

(** *** Status operations *)

(** [{ ...extensionsStatusRef.current, [id]: status }] *)
Definition setExtensionStatus (id : string) (status : ExtensionStatus) (t : tracker) : tracker :=
  setStateWithRef (<[id := status]> (extensionsStatusRef t))
    setExtensionsStatus assignExtensionsStatusRef t.

(** A copy of [extensionsStatusRef.current] with [id] deleted. *)
Definition removeExtensionStatus (id : string) (t : tracker) : tracker :=
  let newExtensionsStatus := delete id (extensionsStatusRef t) in
  setStateWithRef newExtensionsStatus setExtensionsStatus assignExtensionsStatusRef t.

(** [extensionsStatus[id] !== undefined]: an inherited member is a
    function (or, for [__proto__], the prototype object), not [undefined]. *)
Definition extensionInstalled (t : tracker) (id : string) : bool :=
  match readProperty (extensionsStatus t) id with
  | OwnValue _ | InheritedMember => true
  | Undefined => false
  end.

(** [extensionInstalled(id) && extensionsStatus[id] !== "connected"]: only
    an own record can be the string ["connected"]. *)
Definition extensionCanConnect (t : tracker) (id : string) : bool :=
  extensionInstalled t id
  && match readProperty (extensionsStatus t) id with
     | OwnValue status => bool_decide (status ≠ "connected")
     | InheritedMember | Undefined => true
     end.

(** ** The detection window *)

Definition checkEveryMs : N := 300.
Definition totalChecks : nat := 10.
(** The bound passed to [withTimeout] by [handleSnapInjection]. *)
Definition snapTimeoutMs : N := 500.

(** What the host's [web3Enable("snap_only")] does once called: it
    resolves or rejects after some milliseconds, or never settles. *)
Inductive probe : Type :=
| ProbeResolves (after : N)
| ProbeRejects (after : N)
| ProbeHangs.

(** Modelled from the spec: [withTimeout] (utils) is not among the sources.
    The specification bounds the probe by a fixed timeout: the tracker
    waits until the probe settles or the timeout elapses, whichever comes
    first, and a probe that fails or does not settle in time is treated as
    failed without error propagation.  The result is the time the caller
    waits and how the promise it awaits settles. *)
Definition withTimeout (ms : N) (p : probe) : N * settled :=
  match p with
  | ProbeResolves after => (N.min after ms, Fulfilled)
  | ProbeRejects after => (N.min after ms, Fulfilled)
  | ProbeHangs => (ms, Fulfilled)
  end.

Definition clearInterval (t : tracker) : tracker :=
  assignInjectedWeb3Interval false t.

Definition setInterval (t : tracker) : tracker :=
  assignInjectedWeb3Interval true t.

(** [handleSnapInjection] up to its [await]: with the snap enabled the
    probe is issued and the function suspends; otherwise it runs on to
    [setStateWithRef(false, ...)] within the same call. *)
Definition handleSnapInjection (t : tracker) : tracker :=
  if polkaGateSnapEnabled t
  then assignSnapProbe Awaiting t
  else setStateWithRef false setCheckingInjectedWeb3 assignCheckingInjectedWeb3Ref t.

(** [handleSnapInjection] from its [await] on.  There is no [try] around
    the [await]: a rejected promise ends the function there, before the
    flag is touched. *)
Definition handleSnapInjectionResume (p : probe) (t : tracker) : tracker :=
  let '(waited, how) := withTimeout snapTimeoutMs p in
  let t := assignSnapProbe (Settled how) (elapse waited t) in
  match how with
  | Fulfilled =>
      setStateWithRef false setCheckingInjectedWeb3 assignCheckingInjectedWeb3Ref t
  | Rejected => t
  end.

Definition handleClearInterval (t : tracker) : tracker :=
  handleSnapInjection (clearInterval t).

(** The callback given to [setInterval]. *)
Definition intervalCallback (t : tracker) : tracker :=
  let t := assignInjectCounter (S (injectCounter t)) (elapse checkEveryMs t) in
  if bool_decide (injectCounter t = totalChecks) then handleClearInterval t else t.

(** The body of the [useEffect]. *)
Definition effect (t : tracker) : tracker :=
  if intervalInitialisedRef t then t
  else setInterval (assignIntervalInitialisedRef true t).

(** The function the [useEffect] returns. *)
Definition cleanup (t : tracker) : tracker := clearInterval t.

(** The effect has no dependency array: every render after the first runs
    the previous effect's cleanup and then the effect again. *)
Definition rerender (t : tracker) : tracker := effect (cleanup t).

(** A handler that changed the flag's state cell causes a render. *)
Definition commit (before after : tracker) : tracker :=
  if bool_decide (checkingInjectedWeb3 before = checkingInjectedWeb3 after)
  then after else rerender after.

(** [options?.polkagateSnapEnabled || false] *)
Definition snapOption (options : option ProviderOptions) : bool :=
  match options with
  | Some o => default false (polkagateSnapEnabled o)
  | None => false
  end.

(** The cells as the first render creates them. *)
Definition initial (options : option ProviderOptions) : tracker :=
  mkTracker true true false ∅ ∅ (snapOption options) false 0 NotIssued 0.

(** The mounted provider: first render, then its effect. *)
Definition ExtensionsProvider (options : option ProviderOptions) : tracker :=
  effect (initial options).

(** What the host and the consumers do to a mounted provider. *)
Inductive event : Type :=
| Tick                                   (* the interval timer fires *)
| Settle (p : probe)                     (* the awaited promise settles *)
| Render                                 (* the parent renders the provider again *)
| SetStatus (id : string) (status : ExtensionStatus)
| RemoveStatus (id : string).

Definition step (e : event) (t : tracker) : tracker :=
  match e with
  | Tick =>
      if injectedWeb3Interval t then commit t (intervalCallback t) else t
  | Settle p =>
      match snapProbe t with
      | Awaiting => commit t (handleSnapInjectionResume p t)
      | _ => t
      end
  | Render => rerender t
  | SetStatus id status => rerender (setExtensionStatus id status t)
  | RemoveStatus id => rerender (removeExtensionStatus id t)
  end.

Definition run (trace : list event) (t : tracker) : tracker :=
  foldl (λ t e, step e t) t trace.

(** Number of steps of [trace], run from [t], at which the flag goes from
    [true] to [false]. *)
Fixpoint setsFalse (trace : list event) (t : tracker) : nat :=
  match trace with
  | [] => 0
  | e :: trace =>
      (if checkingInjectedWeb3 t && negb (checkingInjectedWeb3 (step e t)) then 1 else 0)
      + setsFalse trace (step e t)
  end.

(** What the provider hands to its consumers, queries included. *)
Record ExtensionsContextInterface : Type := mkContext {
  contextExtensionsStatus : gmap string ExtensionStatus;
  contextCheckingInjectedWeb3 : bool;
  contextExtensionInstalled : string → bool;
  contextExtensionCanConnect : string → bool;
  contextExtensionHasFeature : string → string → completion bool
}.

Definition contextValue (extensions : gmap string ExtensionConfig) (t : tracker)
    : ExtensionsContextInterface :=
  mkContext (extensionsStatusRef t) (checkingInjectedWeb3 t)
    (extensionInstalled t) (extensionCanConnect t) (extensionHasFeature extensions).

(** ** Predicates on the provider's cells *)

(** The awaited promise has settled, where there is one to await. *)
Definition probeDone (t : tracker) : Prop :=
  polkaGateSnapEnabled t = false ∨ ∃ how, snapProbe t = Settled how.

(** The timer is gone, no probe was issued and the flag is still set. *)
Definition stalled (t : tracker) : Prop :=
  injectedWeb3Interval t = false
  ∧ intervalInitialisedRef t = true
  ∧ snapProbe t = NotIssued
  ∧ checkingInjectedWeb3 t = true.

(** What holds of the provider after any sequence of events. *)
Definition inv (t : tracker) : Prop :=
  checkingInjectedWeb3Ref t = checkingInjectedWeb3 t
  ∧ extensionsStatus t = extensionsStatusRef t
  ∧ intervalInitialisedRef t = true
  ∧ match snapProbe t with
    | NotIssued =>
        if checkingInjectedWeb3 t
        then injectCounter t < totalChecks
             ∧ clock t = (checkEveryMs * N.of_nat (injectCounter t))%N
        else polkaGateSnapEnabled t = false
             ∧ injectedWeb3Interval t = false
             ∧ injectCounter t = totalChecks
             ∧ clock t = (checkEveryMs * N.of_nat totalChecks)%N
    | Awaiting =>
        polkaGateSnapEnabled t = true
        ∧ checkingInjectedWeb3 t = true
        ∧ injectedWeb3Interval t = false
        ∧ injectCounter t = totalChecks
        ∧ clock t = (checkEveryMs * N.of_nat totalChecks)%N
    | Settled how =>
        how = Fulfilled
        ∧ polkaGateSnapEnabled t = true
        ∧ checkingInjectedWeb3 t = false
        ∧ injectedWeb3Interval t = false
        ∧ injectCounter t = totalChecks
        ∧ (checkEveryMs * N.of_nat totalChecks ≤ clock t
           ≤ checkEveryMs * N.of_nat totalChecks + snapTimeoutMs)%N
    end.

(** The events that make React render the provider again: a render of
    its parent, and the two status operations, which give a new object to
    [setExtensionsStatus]. *)
Definition rendersProvider (e : event) : bool :=
  match e with
  | Render | SetStatus _ _ | RemoveStatus _ => true
  | Tick | Settle _ => false
  end.

(** ** Package checks before a build ([prebuild], builder) *)

Section Prebuild.
(** The values of a package.json; only its keys are looked at. *)
Context {JsonValue : Type}.
(** [PACKAGE_SOURCE_REQUIRED_PROPERTIES] (config), not among the sources. *)
Variable requiredProperties : list string.

(** [filesExist] is what [checkFilesExistInPackages] answered and
    [sourcePackageJson] what [getPackageJson] read.  The entries of the
    package are filtered by [requiredProperties.includes(property)] and
    counted against [requiredProperties.length]. *)
Definition prebuild (filesExist : bool) (sourcePackageJson : gmap string JsonValue) : bool :=
  if negb filesExist then false
  else
    let found :=
      List.filter (λ entry : string * JsonValue, includes requiredProperties entry.1)
        (map_to_list sourcePackageJson) in
    if negb (length found =? length requiredProperties)%nat then false else true.
End Prebuild.

(** ** Utilities (utils) *)

Section SortWithNull.
(** The values compared are [null] or of one primitive type on which
    [===] is equality and [<] the order [lessThan]: numbers other than
    [NaN], or strings. *)
Context {A : Type} `{EqDecision A}.
Variable lessThan : A → A → bool.

Definition sortWithNull (ascending : bool) (a b : option A) : Z :=
  if decide (a = b) then 0%Z
  else
    match a, b with
    | None, _ => 1%Z
    | _, None => (-1)%Z
    | Some x, Some y =>
        if ascending
        then (if lessThan x y then (-1)%Z else 1%Z)
        else (if lessThan x y then 1%Z else (-1)%Z)
    end.
End SortWithNull.

Section ObjectLists.
(** Items are objects whose property values are primitives on which
    [===] is equality (any but [NaN]). *)
Context {V : Type} `{EqDecision V}.

(** [!(key in x) || !(key in y) ? false : x[key] === y[key]] *)
Definition sameAt (x y : gmap string V) (key : string) : bool :=
  if negb (bool_decide (is_Some (x !! key))) || negb (bool_decide (is_Some (y !! key)))
  then false
  else bool_decide (x !! key = y !! key).

(** [!!items.find((other) => keys.every((key) => ...))]: [find] gives an
    item, which is an object, or [undefined]. *)
Definition findMatch (keys : list string) (items : list (gmap string V))
    (item : gmap string V) : bool :=
  match List.find (λ other, forallb (sameAt other item) keys) items with
  | Some _ => true
  | None => false
  end.

(** The arguments are arrays, for which [typeof] is ["object"]; what is
    left of the guard is [!keys.length]. *)
Definition addedTo (fresh stale : list (gmap string V)) (keys : list string)
    : list (gmap string V) :=
  if (length keys =? 0)%nat then []
  else List.filter (λ freshItem, negb (findMatch keys stale freshItem)) fresh.

Definition removedFrom (fresh stale : list (gmap string V)) (keys : list string)
    : list (gmap string V) :=
  if (length keys =? 0)%nat then []
  else List.filter
         (λ staleItem,
            negb (match List.find
                          (λ freshItem, forallb
                             (λ key,
                                if negb (bool_decide (is_Some (staleItem !! key)))
                                   || negb (bool_decide (is_Some (freshItem !! key)))
                                then false
                                else bool_decide (freshItem !! key = staleItem !! key))
                             keys)
                          fresh
                  with Some _ => true | None => false end))
         stale.

Definition matchedProperties (objX objY : list (gmap string V)) (keys : list string)
    : list (gmap string V) :=
  if (length keys =? 0)%nat then []
  else List.filter
         (λ x,
            match List.find
                    (λ y, forallb
                            (λ key,
                               if negb (bool_decide (is_Some (x !! key)))
                                  || negb (bool_decide (is_Some (y !! key)))
                               then false
                               else bool_decide (y !! key = x !! key))
                            keys)
                    objX
            with Some _ => true | None => false end)
         objY.
End ObjectLists.

Section MakeCancelable.
(** What the promise fulfils with (not a thenable) and what it rejects
    with. *)
Context {Val Err : Type}.

(** [Error("Cancelled")], or the promise's own error. *)
Inductive rejection : Type :=
| Cancelled
| OwnError (error : Err).

Inductive promiseState : Type :=
| Pending
| FulfilledWith (val : Val)
| RejectedWith (reason : rejection).

(** The closure's [hasCanceled] and the state of [wrappedPromise]. *)
Record cancelable : Type := mkCancelable {
  hasCanceled : bool;
  wrappedPromise : promiseState
}.

Definition makeCancelable : cancelable := mkCancelable false Pending.

(** [cancel: () => { hasCanceled = true; }] *)
Definition cancel (c : cancelable) : cancelable :=
  mkCancelable true (wrappedPromise c).

(** The executor's [resolve] and [reject] settle a pending promise and do
    nothing to a settled one. *)
Definition resolveWrapped (val : Val) (c : cancelable) : cancelable :=
  match wrappedPromise c with
  | Pending => mkCancelable (hasCanceled c) (FulfilledWith val)
  | _ => c
  end.

Definition rejectWrapped (reason : rejection) (c : cancelable) : cancelable :=
  match wrappedPromise c with
  | Pending => mkCancelable (hasCanceled c) (RejectedWith reason)
  | _ => c
  end.

(** [(val) => hasCanceled ? reject(Error("Cancelled")) : resolve(val)] *)
Definition onFulfilled (val : Val) (c : cancelable) : cancelable :=
  if hasCanceled c then rejectWrapped Cancelled c else resolveWrapped val c.

(** [(error) => hasCanceled ? reject(Error("Cancelled")) : reject(error)] *)
Definition onRejected (error : Err) (c : cancelable) : cancelable :=
  if hasCanceled c then rejectWrapped Cancelled c else rejectWrapped (OwnError error) c.

(** A call of [cancel], or the reaction to the settling of the promise. *)
Inductive cancelableEvent : Type :=
| CallCancel
| PromiseFulfils (val : Val)
| PromiseRejects (error : Err).

Definition cancelableStep (e : cancelableEvent) (c : cancelable) : cancelable :=
  match e with
  | CallCancel => cancel c
  | PromiseFulfils val => onFulfilled val c
  | PromiseRejects error => onRejected error c
  end.

Definition cancelableRun (trace : list cancelableEvent) (c : cancelable) : cancelable :=
  foldl (λ c e, cancelableStep e c) c trace.
End MakeCancelable.

(** Objects as lists of their own properties in the order [for ... in]
    visits them, for [mergeDeep].  Property names are taken not to be array
    indices, which JavaScript visits first whenever they were added.  The
    objects are data: plain objects whose own properties are writable data
    properties, and whose prototype is [Object.prototype]. *)

(** The own property [key], if there is one. *)
Fixpoint getField {B : Type} (key : string) (fields : list (string * B)) : option B :=
  match fields with
  | [] => None
  | (k, v) :: rest => if decide (k = key) then Some v else getField key rest
  end.

(** The own property [key] becomes [v]: an existing property keeps its
    place, a new one comes last. *)
Fixpoint assignField {B : Type} (key : string) (v : B) (fields : list (string * B))
    : list (string * B) :=
  match fields with
  | [] => [(key, v)]
  | (k, w) :: rest =>
      if decide (k = key) then (k, v) :: rest else (k, w) :: assignField key v rest
  end.

(** [object[key]]: the own property, else what [Object.prototype] has
    under that name. *)
Definition readField {B : Type} (key : string) (fields : list (string * B))
    : propertyRead B :=
  match getField key fields with
  | Some v => OwnValue v
  | None => inherited key
  end.

(** [Object.assign(target, { [key]: v })] assigns, it does not define.  An
    own property is overwritten.  Without one the name is looked up in
    [Object.prototype]: its methods are writable data properties, under
    which, as under any other name, the assignment creates an own property
    of the target; [__proto__] is an accessor, whose setter receives the
    value and creates no property. *)
Definition setField {B : Type} (key : string) (v : B) (fields : list (string * B))
    : list (string * B) :=
  match getField key fields with
  | Some _ => assignField key v fields
  | None => if decide (key = "__proto__") then fields else assignField key v fields
  end.

Section MergeDeep.
(** Everything [isObject] rejects is a leaf: primitives, [null], arrays,
    functions.  [truthy] is JavaScript's truthiness of a leaf. *)
Context {leaf : Type}.
Variable truthy : leaf → bool.

#[local] Set Warnings "-register-all".

(** Values are trees: no object is reachable twice, and the target shares
    nothing with the sources. *)
Inductive value : Type :=
| Leaf (x : leaf)
| Obj (fields : list (string * value)).

(** [!target[key]] negated. *)
Definition truthyValue (v : value) : bool :=
  match v with
  | Leaf x => truthy x
  | Obj _ => true
  end.

(** The body of the loop for the source property [key] with value [v];
    [rec] is the nested call.
    - [v] is an object.  Where [target[key]] is falsy (nothing there, own
      or inherited, or an own falsy value) it is first assigned a new empty
      object.  The nested call then merges [v] into [target[key]], in
      place; it does nothing when that is not an object.  An inherited
      method is truthy and not an object, so under such a name, with no own
      property, the target stays as it is.  Under [__proto__], with no own
      property, [target[key]] is [Object.prototype] itself: the nested call
      merges into it and the own properties of the target stay as they
      are.
    - [v] is not an object: it is assigned. *)
Definition mergeProperty (rec : value → value → value)
    (key : string) (v : value) (target : list (string * value))
    : list (string * value) :=
  match v with
  | Obj _ =>
      match readField key target with
      | OwnValue current =>
          if truthyValue current then assignField key (rec current v) target
          else assignField key (rec (Obj []) v) target
      | InheritedMember => target
      | Undefined => assignField key (rec (Obj []) v) target
      end
  | Leaf _ => setField key v target
  end.

(** The [for (const key in source)] loop. *)
Fixpoint mergeFieldsWith (rec : value → value → value)
    (source target : list (string * value)) : list (string * value) :=
  match source with
  | [] => target
  | (key, v) :: rest => mergeFieldsWith rec rest (mergeProperty rec key v target)
  end.

(** [mergeDeep(target, source)] *)
Fixpoint merge (target source : value) {struct source} : value :=
  match source, target with
  | Obj sourceFields, Obj targetFields =>
      Obj (mergeFieldsWith merge sourceFields targetFields)
  | _, _ => target
  end.

(** [mergeDeep(target, ...sources)] *)
Definition mergeDeep (target : value) (sources : list value) : value :=
  foldl merge target sources.

(** What the loop leaves as the own property [key] of the target, from the
    source's value [v] under [key] and the own property [current] the
    target had there. *)
Definition mergedAt (key : string) (v : value) (current : option value) : option value :=
  match v, current with
  | Leaf _, Some _ => Some v
  | Leaf _, None => if decide (key = "__proto__") then None else Some v
  | Obj _, Some w => Some (merge (if truthyValue w then w else Obj []) v)
  | Obj _, None =>
      if bool_decide (key ∈ objectPrototypeMembers) then None
      else Some (merge (Obj []) v)
  end.

(** No property name occurs twice in an object, at any depth. *)
Fixpoint wellFormed (v : value) : Prop :=
  match v with
  | Leaf _ => True
  | Obj fields =>
      NoDup (fields.*1)
      ∧ (fix each (fields : list (string * value)) : Prop :=
           match fields with
           | [] => True
           | (_, w) :: rest => wellFormed w ∧ each rest
           end) fields
  end.

(** Every property name, at any depth, satisfies [P]. *)
Fixpoint everyKey (P : string → Prop) (v : value) : Prop :=
  match v with
  | Leaf _ => True
  | Obj fields =>
      (fix each (fields : list (string * value)) : Prop :=
         match fields with
         | [] => True
         | (k, w) :: rest => P k ∧ everyKey P w ∧ each rest
         end) fields
  end.

(** The model follows the own properties of the target and takes every
    prototype to be [Object.prototype] with its standard members.  The
    code can change that only by writing through the setter of
    [__proto__], that is for a source with an own property of that name
    (as [JSON.parse] makes them): the setter can replace the prototype of
    the target, and for an object under that name the nested call merges
    into [Object.prototype] itself.  An [ordinary] value has no such
    property at any depth. *)
Definition ordinary (v : value) : Prop := everyKey (λ key, key ≠ "__proto__") v.

(** No property is named after a member of [Object.prototype]. *)
Definition plainNames (v : value) : Prop :=
  everyKey (λ key, key ∉ objectPrototypeMembers) v.
End MergeDeep.

(** * Properties *)

(** ** Registry lookups *)

Lemma includes_true (names : list string) (feature : string) :
  includes names feature = true ↔ feature ∈ names.
Proof. unfold includes. apply bool_decide_eq_true. Qed.

Lemma includes_false (names : list string) (feature : string) :
  includes names feature = false ↔ feature ∉ names.
Proof. unfold includes. apply bool_decide_eq_false. Qed.

(** A returned boolean means the identifier is a key of the registry. *)
Lemma extensionHasFeature_returns_iff_registered
    (extensions : gmap string ExtensionConfig) (id feature : string) :
  (∃ b, extensionHasFeature extensions id feature = Return b)
  ↔ is_Some (extensions !! id).
Proof.
  unfold extensionHasFeature. split.
  - intros [b Hb]. destruct (extensions !! id); [by eexists | discriminate].
  - intros [config ->]. destruct (features config) as [|names]; [by eexists |].
    destruct (includes names feature); by eexists.
Qed.

(** C1, as amended: for every id that is not a key of the registry and
    every feature, [extensionHasFeature] does not return [false]; the
    lookup yields [undefined], and destructuring [features] out of it
    raises a [TypeError]. *)
Theorem extensionHasFeature_unknown_id_throws
    (extensions : gmap string ExtensionConfig) (id feature : string) :
  extensions !! id = None →
  extensionHasFeature extensions id feature = Throw TypeError.
Proof. intros Hid. unfold extensionHasFeature. by rewrite Hid. Qed.

Lemma extensionHasFeature_unknown_id_throws_witness :
  Extensions !! "unknown-wallet" = None
  ∧ extensionHasFeature Extensions "unknown-wallet" "signer" = Throw TypeError.
Proof.
  split; [vm_compute; reflexivity |].
  apply (extensionHasFeature_unknown_id_throws Extensions "unknown-wallet" "signer").
  vm_compute; reflexivity.
Defined.

(** C1, as stated, fails: ["unknown-wallet"] is not a key of [Extensions],
    and asking for its ["signer"] feature does not return [false]. *)
Lemma extensionHasFeature_unknown_id_not_false :
  Extensions !! "unknown-wallet" = None
  ∧ extensionHasFeature Extensions "unknown-wallet" "signer" ≠ Return false.
Proof. split; [vm_compute; reflexivity | vm_compute; discriminate]. Qed.

(** C7: for an id whose descriptor carries the wildcard marker the answer
    is [true] for every feature; for one with an explicit feature list the
    answer is [true] exactly for the members of the list, hence [false]
    for every feature when the list is empty. *)
Theorem extensionHasFeature_registered
    (extensions : gmap string ExtensionConfig) (id feature : string)
    (config : ExtensionConfig) :
  extensions !! id = Some config →
  (features config = AllFeatures →
     extensionHasFeature extensions id feature = Return true)
  ∧ (∀ names, features config = FeatureList names →
       (extensionHasFeature extensions id feature = Return true ↔ feature ∈ names)
       ∧ (extensionHasFeature extensions id feature = Return false ↔ feature ∉ names))
  ∧ (features config = FeatureList [] →
       extensionHasFeature extensions id feature = Return false).
Proof.
  intros Hid. unfold extensionHasFeature. rewrite Hid.
  split; [by intros -> |]. split.
  - intros names ->. destruct (includes names feature) eqn:Hincl.
    + apply includes_true in Hincl. split; split; [done | done | discriminate | done].
    + apply includes_false in Hincl. split; split; [discriminate | done | done | done].
  - by intros ->.
Qed.

Lemma extensionHasFeature_registered_witness :
  extensionHasFeature Extensions "metamask-polkadot-snap" "signer" = Return true
  ∧ extensionHasFeature Extensions "metamask-polkadot-snap" "subscribeAccounts" = Return false
  ∧ extensionHasFeature Extensions "talisman" "subscribeAccounts" = Return true.
Proof.
  pose (snap := mkExtensionConfig "MetaMask Polkadot Snap"
    (UrlText "snaps.metamask.io/snap/npm/chainsafe/polkadot-snap" "snaps.metamask.io")
    WebExtension (FeatureList ["getAccounts"; "signer"])).
  pose (talisman := mkExtensionConfig "Talisman" (Domain "talisman.xyz")
    WebExtension AllFeatures).
  assert (Hsnap : Extensions !! "metamask-polkadot-snap" = Some snap)
    by (vm_compute; reflexivity).
  assert (Htalisman : Extensions !! "talisman" = Some talisman)
    by (vm_compute; reflexivity).
  split; [| split].
  - destruct (extensionHasFeature_registered Extensions "metamask-polkadot-snap"
                "signer" snap Hsnap) as (_ & Hlist & _).
    apply (Hlist _ eq_refl). apply elem_of_cons; right. apply elem_of_cons; by left.
  - destruct (extensionHasFeature_registered Extensions "metamask-polkadot-snap"
                "subscribeAccounts" snap Hsnap) as (_ & Hlist & _).
    apply (Hlist _ eq_refl). intros Hin.
    repeat (apply elem_of_cons in Hin as [Heq | Hin]; [discriminate |]).
    by apply elem_of_nil in Hin.
  - destruct (extensionHasFeature_registered Extensions "talisman"
                "subscribeAccounts" talisman Htalisman) as (Hall & _).
    by apply Hall.
Defined.

(** The hardware entries of [Extensions] support no feature, the
    web extensions marked ["*"] support every feature. *)
Lemma Extensions_hardware_no_feature (feature : string) :
  extensionHasFeature Extensions "ledger" feature = Return false
  ∧ extensionHasFeature Extensions "polkadotvault" feature = Return false
  ∧ extensionHasFeature Extensions "walletconnect" feature = Return false.
Proof. repeat split; reflexivity. Qed.

Lemma Extensions_wildcard_every_feature (id feature : string) :
  id ∈ ["enkrypt"; "fearless-wallet"; "polkagate"; "subwallet-js"; "talisman";
        "polkadot-js"; "nova-wallet"] →
  extensionHasFeature Extensions id feature = Return true.
Proof.
  intros Hin.
  repeat (apply elem_of_cons in Hin as [-> | Hin]; [reflexivity |]).
  by apply elem_of_nil in Hin.
Qed.

(** ** Status operations *)

Lemma setExtensionStatus_cells (id : string) (status : ExtensionStatus) (t : tracker) :
  extensionsStatusRef (setExtensionStatus id status t) = <[id := status]> (extensionsStatusRef t)
  ∧ extensionsStatus (setExtensionStatus id status t) = <[id := status]> (extensionsStatusRef t).
Proof. split; reflexivity. Qed.

Lemma removeExtensionStatus_cells (id : string) (t : tracker) :
  extensionsStatusRef (removeExtensionStatus id t) = delete id (extensionsStatusRef t)
  ∧ extensionsStatus (removeExtensionStatus id t) = delete id (extensionsStatusRef t).
Proof. split; reflexivity. Qed.

Lemma readProperty_own {V : Type} (object : gmap string V) (key : string) (v : V) :
  object !! key = Some v → readProperty object key = OwnValue v.
Proof. intros Hv. unfold readProperty. by rewrite Hv. Qed.

Lemma readProperty_inherited {V : Type} (object : gmap string V) (key : string) :
  object !! key = None → key ∈ objectPrototypeMembers →
  readProperty object key = InheritedMember.
Proof.
  intros Hv Hin. unfold readProperty, inherited. rewrite Hv.
  by rewrite bool_decide_eq_true_2.
Qed.

Lemma readProperty_undefined {V : Type} (object : gmap string V) (key : string) :
  object !! key = None → key ∉ objectPrototypeMembers →
  readProperty object key = Undefined.
Proof.
  intros Hv Hin. unfold readProperty, inherited. rewrite Hv.
  by rewrite bool_decide_eq_false_2.
Qed.

(** The three outcomes of a read, by what the object owns and inherits. *)
Lemma readProperty_cases {V : Type} (object : gmap string V) (key : string) :
  (∃ v, object !! key = Some v ∧ readProperty object key = OwnValue v)
  ∨ (object !! key = None ∧ key ∈ objectPrototypeMembers
     ∧ readProperty object key = InheritedMember)
  ∨ (object !! key = None ∧ (key ∉ objectPrototypeMembers)
     ∧ readProperty object key = Undefined).
Proof.
  destruct (object !! key) as [v |] eqn:Hv.
  - left. exists v. split; [done | by apply readProperty_own].
  - right. destruct (decide (key ∈ objectPrototypeMembers)) as [Hin | Hin].
    + left. split; [done |]. split; [done | by apply readProperty_inherited].
    + right. split; [done |]. split; [done | by apply readProperty_undefined].
Qed.

Lemma extensionInstalled_true (t : tracker) (id : string) :
  extensionInstalled t id = true
  ↔ is_Some (extensionsStatus t !! id) ∨ id ∈ objectPrototypeMembers.
Proof.
  unfold extensionInstalled.
  destruct (readProperty_cases (extensionsStatus t) id)
    as [(v & Hv & ->) | [(Hv & Hin & ->) | (Hv & Hin & ->)]]; rewrite Hv.
  - split; [intros _; left; by eexists | done].
  - split; [intros _; by right | done].
  - split; [done |]. intros [[v Hsome] | Hmem]; [done | by destruct Hin].
Qed.

Lemma extensionCanConnect_true (t : tracker) (id : string) :
  extensionCanConnect t id = true
  ↔ (∃ status, extensionsStatus t !! id = Some status ∧ status ≠ "connected")
    ∨ (extensionsStatus t !! id = None ∧ id ∈ objectPrototypeMembers).
Proof.
  unfold extensionCanConnect, extensionInstalled.
  destruct (readProperty_cases (extensionsStatus t) id)
    as [(v & Hv & ->) | [(Hv & Hin & ->) | (Hv & Hin & ->)]]; rewrite Hv; simpl.
  - rewrite bool_decide_eq_true. split.
    + intros Hne. left. by exists v.
    + intros [(status & Hst & Hne) | [Hnone _]]; [congruence | done].
  - split; [intros _; by right | done].
  - split; [done |].
    intros [(status & Hst & _) | [_ Hmem]]; [done | by destruct Hin].
Qed.

(** For an identifier that is not the name of a member of
    [Object.prototype], [extensionInstalled id] holds exactly when a status
    is recorded for [id], whatever it is, and [extensionCanConnect id]
    exactly when one is recorded and is not ["connected"].  For every [x],
    after [setExtensionStatus x "installed"] both hold of [x], and after
    [setExtensionStatus x "connected"] the second does not: an own record
    shadows the inherited member. *)
Lemma extensionInstalled_extensionCanConnect_records (t : tracker) (id x : string) :
  (id ∉ objectPrototypeMembers →
     (extensionInstalled t id = true ↔ is_Some (extensionsStatus t !! id))
     ∧ (extensionCanConnect t id = true
        ↔ ∃ status, extensionsStatus t !! id = Some status ∧ status ≠ "connected"))
  ∧ extensionInstalled (setExtensionStatus x "installed" t) x = true
  ∧ extensionCanConnect (setExtensionStatus x "installed" t) x = true
  ∧ extensionInstalled (setExtensionStatus x "connected" t) x = true
  ∧ extensionCanConnect (setExtensionStatus x "connected" t) x = false.
Proof.
  split.
  { intros Hid. rewrite extensionInstalled_true, extensionCanConnect_true. split.
    - split; [intros [Hsome | Hmem]; [done | by destruct Hid] | by left].
    - split; [intros [Hsome | [_ Hmem]]; [done | by destruct Hid] | by left]. }
  assert (Hinst : ∀ status, extensionInstalled (setExtensionStatus x status t) x = true).
  { intros status. apply extensionInstalled_true. left.
    rewrite (proj2 (setExtensionStatus_cells x status t)), lookup_insert_eq. by eexists. }
  split; [apply Hinst |]. split; [| split; [apply Hinst |]].
  - apply extensionCanConnect_true. left. exists "installed".
    by rewrite (proj2 (setExtensionStatus_cells x "installed" t)), lookup_insert_eq.
  - apply not_true_is_false. rewrite extensionCanConnect_true.
    rewrite (proj2 (setExtensionStatus_cells x "connected" t)), lookup_insert_eq.
    intros [(status & Hst & Hne) | [Hnone _]]; congruence.
Qed.

(** C4: for the name of a member every object inherits from
    [Object.prototype] ([toString], [constructor], ...), and with no status
    recorded under that name, [extensionInstalled] and
    [extensionCanConnect] both answer [true]: the read
    [extensionsStatus[id]] finds the inherited member, which is neither
    [undefined] nor ["connected"].  A provider that has just been mounted
    reports ["toString"] as installed and connectable. *)
Theorem extensionInstalled_inherited_member (t : tracker) (id : string) :
  id ∈ objectPrototypeMembers →
  extensionsStatus t !! id = None →
  extensionInstalled t id = true ∧ extensionCanConnect t id = true.
Proof.
  intros Hin Hnone. split.
  - apply extensionInstalled_true. by right.
  - apply extensionCanConnect_true. by right.
Qed.

Lemma extensionInstalled_inherited_member_witness :
  extensionsStatus (ExtensionsProvider None) !! "toString" = None
  ∧ extensionInstalled (ExtensionsProvider None) "toString" = true
  ∧ extensionCanConnect (ExtensionsProvider None) "toString" = true.
Proof.
  split; [reflexivity |].
  apply (extensionInstalled_inherited_member (ExtensionsProvider None) "toString").
  - unfold objectPrototypeMembers. do 8 (apply elem_of_cons; right).
    apply elem_of_cons; by left.
  - reflexivity.
Defined.

(** C5: [setExtensionStatus id status] leaves a mapping whose entry for
    [id] is [status], whatever was there before and whether or not [id] is
    in the registry, and in which every other entry is as it was; the state
    cell and the ref hold the same mapping.  Setting ["talisman"] to
    ["installed"] and then to ["connected"], from the empty mapping, gives
    the mapping with the single entry ["talisman" := "connected"]. *)
Theorem setExtensionStatus_upsert (t : tracker) (id : string) (status : ExtensionStatus) :
  extensionsStatusRef (setExtensionStatus id status t) !! id = Some status
  ∧ (∀ other, other ≠ id →
       extensionsStatusRef (setExtensionStatus id status t) !! other
       = extensionsStatusRef t !! other)
  ∧ extensionsStatus (setExtensionStatus id status t)
    = extensionsStatusRef (setExtensionStatus id status t)
  ∧ (extensionsStatusRef t = ∅ →
       extensionsStatusRef
         (setExtensionStatus "talisman" "connected"
            (setExtensionStatus "talisman" "installed" t))
       = {[ "talisman" := "connected" ]}
       ∧ size (extensionsStatusRef
                 (setExtensionStatus "talisman" "connected"
                    (setExtensionStatus "talisman" "installed" t))) = 1).
Proof.
  split; [apply lookup_insert_eq |].
  split; [intros other Hne; by apply lookup_insert_ne |].
  split; [reflexivity |].
  intros Hempty.
  assert (Hmap : extensionsStatusRef
            (setExtensionStatus "talisman" "connected"
               (setExtensionStatus "talisman" "installed" t))
          = {[ "talisman" := "connected" ]}).
  { rewrite !(proj1 (setExtensionStatus_cells _ _ _)), Hempty.
    by rewrite insert_insert_eq, insert_empty. }
  split; [exact Hmap |]. rewrite Hmap. apply map_size_singleton.
Qed.

(** C8: removing the status of an id that has none raises nothing and
    leaves the mapping as it was. *)
Theorem removeExtensionStatus_absent_noop (t : tracker) (id : string) :
  extensionsStatusRef t !! id = None →
  extensionsStatusRef (removeExtensionStatus id t) = extensionsStatusRef t
  ∧ extensionsStatus (removeExtensionStatus id t) = extensionsStatusRef t.
Proof.
  intros Hid. destruct (removeExtensionStatus_cells id t) as [-> ->].
  by rewrite delete_id.
Qed.

Lemma removeExtensionStatus_absent_noop_witness :
  let t := setExtensionStatus "talisman" "installed" (initial None) in
  extensionsStatusRef t !! "ledger" = None
  ∧ extensionsStatusRef (removeExtensionStatus "ledger" t) = extensionsStatusRef t
  ∧ extensionsStatus (removeExtensionStatus "ledger" t) = extensionsStatusRef t.
Proof.
  intros t.
  assert (H : extensionsStatusRef t !! "ledger" = None) by (vm_compute; reflexivity).
  split; [exact H |]. exact (removeExtensionStatus_absent_noop t "ledger" H).
Defined.

(** C10: on a mapping with no entry for [id], setting a status for [id] and
    then removing it gives back the mapping: it has the same entry at every
    key, and so is the same map. *)
Theorem removeExtensionStatus_setExtensionStatus (t : tracker) (id : string)
    (status : ExtensionStatus) :
  extensionsStatusRef t !! id = None →
  (∀ key, extensionsStatusRef (removeExtensionStatus id (setExtensionStatus id status t)) !! key
          = extensionsStatusRef t !! key)
  ∧ extensionsStatusRef (removeExtensionStatus id (setExtensionStatus id status t))
    = extensionsStatusRef t
  ∧ extensionsStatus (removeExtensionStatus id (setExtensionStatus id status t))
    = extensionsStatusRef t.
Proof.
  intros Hid.
  assert (Hmap : delete id (<[id := status]> (extensionsStatusRef t)) = extensionsStatusRef t)
    by by apply delete_insert_id.
  destruct (removeExtensionStatus_cells id (setExtensionStatus id status t)) as [-> ->].
  rewrite (proj1 (setExtensionStatus_cells id status t)), Hmap. done.
Qed.

Lemma removeExtensionStatus_setExtensionStatus_witness :
  let t := setExtensionStatus "talisman" "connected" (initial None) in
  extensionsStatusRef t !! "polkagate" = None
  ∧ extensionsStatusRef
      (removeExtensionStatus "polkagate" (setExtensionStatus "polkagate" "installed" t))
    = extensionsStatusRef t.
Proof.
  intros t.
  assert (H : extensionsStatusRef t !! "polkagate" = None) by (vm_compute; reflexivity).
  split; [exact H |].
  exact (proj1 (proj2 (removeExtensionStatus_setExtensionStatus t "polkagate" "installed" H))).
Defined.

(** ** The detection window *)

Lemma withTimeout_bounded (ms : N) (p : probe) :
  (fst (withTimeout ms p) ≤ ms)%N ∧ snd (withTimeout ms p) = Fulfilled.
Proof. destruct p; simpl; split; try reflexivity; lia. Qed.

Lemma inv_mount (options : option ProviderOptions) : inv (ExtensionsProvider options).
Proof. unfold inv, ExtensionsProvider, initial, totalChecks. simpl. repeat split; lia. Qed.

(** Closes the side conditions of [inv] once the cells are concrete. *)
Ltac close_inv :=
  simpl in *; unfold totalChecks, checkEveryMs, snapTimeoutMs in *;
  repeat case_bool_decide; simpl in *;
  repeat match goal with H : _ ∧ _ |- _ => destruct H end;
  subst; repeat split; try done; try lia.

Lemma inv_step (e : event) (t : tracker) : inv t → inv (step e t).
Proof.
  destruct t as [flag flagRef initialised statuses statusesRef enabled live n phase now].
  unfold inv; simpl. intros (-> & -> & -> & Hphase).
  destruct e as [|p| |id status|id]; simpl.
  - destruct live; [| close_inv].
    unfold intervalCallback, commit, handleClearInterval, handleSnapInjection; simpl.
    destruct phase as [| |how], flag, enabled; close_inv.
  - destruct phase as [| |how]; [close_inv | | close_inv].
    unfold handleSnapInjectionResume, commit.
    destruct (withTimeout_bounded snapTimeoutMs p) as [Hle Hhow].
    destruct (withTimeout snapTimeoutMs p) as [waited how]; simpl in Hle, Hhow. subst how.
    close_inv.
  - destruct phase as [| |how], flag; close_inv.
  - destruct phase as [| |how], flag; close_inv.
  - destruct phase as [| |how], flag; close_inv.
Qed.

Lemma run_app (trace more : list event) (t : tracker) :
  run (trace ++ more) t = run more (run trace t).
Proof. apply foldl_app. Qed.

Lemma inv_run (trace : list event) (t : tracker) : inv t → inv (run trace t).
Proof.
  revert t. induction trace as [|e trace IH]; intros t Ht; [exact Ht |].
  apply IH, inv_step, Ht.
Qed.

Lemma inv_reachable (options : option ProviderOptions) (trace : list event) :
  inv (run trace (ExtensionsProvider options)).
Proof. apply inv_run, inv_mount. Qed.

(** No handler ever gives [true] to the flag's setter. *)
Lemma step_keeps_false (e : event) (t : tracker) :
  checkingInjectedWeb3 t = false → checkingInjectedWeb3 (step e t) = false.
Proof.
  destruct t as [flag flagRef initialised statuses statusesRef enabled live n phase now].
  simpl. intros ->. destruct e as [|p| |id status|id]; simpl.
  - destruct live; [| done].
    unfold intervalCallback, commit, handleClearInterval, handleSnapInjection; simpl.
    destruct enabled, initialised; repeat case_bool_decide; done.
  - destruct phase as [| |how]; [done | | done].
    unfold handleSnapInjectionResume, commit.
    destruct (withTimeout snapTimeoutMs p) as [waited [|]]; simpl;
      destruct initialised; done.
  - by destruct initialised.
  - by destruct initialised.
  - by destruct initialised.
Qed.

Lemma run_keeps_false (trace : list event) (t : tracker) :
  checkingInjectedWeb3 t = false → checkingInjectedWeb3 (run trace t) = false.
Proof.
  revert t. induction trace as [|e trace IH]; intros t Ht; [exact Ht |].
  apply IH, step_keeps_false, Ht.
Qed.

Lemma setsFalse_count (trace : list event) (t : tracker) :
  setsFalse trace t
  = if checkingInjectedWeb3 t && negb (checkingInjectedWeb3 (run trace t)) then 1 else 0.
Proof.
  revert t. induction trace as [|e trace IH]; intros t; simpl.
  - by destruct (checkingInjectedWeb3 t).
  - rewrite IH. destruct (checkingInjectedWeb3 t) eqn:Ht; simpl.
    + destruct (checkingInjectedWeb3 (step e t)) eqn:Hstep; simpl; [done |].
      by rewrite (run_keeps_false trace _ Hstep).
    + by rewrite (step_keeps_false e t Ht).
Qed.

Lemma flag_false_iff_window_complete (t : tracker) :
  inv t →
  checkingInjectedWeb3 t = false ↔ injectCounter t = totalChecks ∧ probeDone t.
Proof.
  destruct t as [flag flagRef initialised statuses statusesRef enabled live n phase now].
  unfold inv, probeDone; simpl. intros (_ & _ & _ & Hphase).
  destruct phase as [| |how], flag; simpl in *; split;
    try (intros (? & [? | [? ?]])); try intros ?;
    repeat match goal with H : _ ∧ _ |- _ => destruct H end;
    subst; try done; try lia; try (split; [done | by left]);
    try (split; [done | right; by eexists]).
Qed.

(** The only steps that clear the flag: the tick that brings the counter
    to the bound when no snap is to be probed, and the settling of the
    awaited promise. *)
Lemma flag_cleared_by (e : event) (t : tracker) :
  checkingInjectedWeb3 t = true →
  checkingInjectedWeb3 (step e t) = false →
  (e = Tick ∧ polkaGateSnapEnabled t = false ∧ S (injectCounter t) = totalChecks)
  ∨ (∃ p, e = Settle p ∧ snapProbe t = Awaiting).
Proof.
  destruct t as [flag flagRef initialised statuses statusesRef enabled live n phase now].
  simpl. intros ->. destruct e as [|p| |id status|id]; simpl.
  - destruct live; [| done].
    unfold intervalCallback, commit, handleClearInterval, handleSnapInjection; simpl.
    destruct (decide (S n = totalChecks)) as [Hn | Hn].
    + rewrite (bool_decide_eq_true_2 _ Hn).
      destruct enabled; simpl; [by destruct initialised |]. intros _. by left.
    + by rewrite (bool_decide_eq_false_2 _ Hn).
  - destruct phase as [| |how]; [done | | done]. intros _. right. by exists p.
  - by destruct initialised.
  - by destruct initialised.
  - by destruct initialised.
Qed.

(** *** The cells along a run *)

Lemma mount_cells (options : option ProviderOptions) :
  ExtensionsProvider options
  = mkTracker true true true ∅ ∅ (snapOption options) true 0 NotIssued 0.
Proof. reflexivity. Qed.

(** While fewer than [totalChecks] ticks have come, the provider polls. *)
Lemma ticks_polling (options : option ProviderOptions) (k : nat) :
  k < totalChecks →
  run (replicate k Tick) (ExtensionsProvider options)
  = mkTracker true true true ∅ ∅ (snapOption options) true k NotIssued
      (checkEveryMs * N.of_nat k).
Proof.
  induction k as [|k IH]; intros Hk; [reflexivity |].
  unfold totalChecks in Hk, IH.
  rewrite replicate_S_end, run_app, IH by lia. simpl.
  unfold intervalCallback, commit; simpl.
  rewrite (bool_decide_eq_false_2 (S k = totalChecks)) by (unfold totalChecks; lia). simpl.
  unfold assignInjectCounter, elapse; simpl. f_equal. unfold checkEveryMs. lia.
Qed.

Lemma window_ticks (options : option ProviderOptions) :
  run (replicate totalChecks Tick) (ExtensionsProvider options)
  = if snapOption options
    then mkTracker true true true ∅ ∅ true false totalChecks Awaiting 3000
    else mkTracker false false true ∅ ∅ false false totalChecks NotIssued 3000.
Proof.
  rewrite mount_cells. destruct (snapOption options); vm_compute; reflexivity.
Qed.

Lemma step_polkaGateSnapEnabled (e : event) (t : tracker) :
  polkaGateSnapEnabled (step e t) = polkaGateSnapEnabled t.
Proof.
  destruct t as [flag flagRef initialised statuses statusesRef enabled live n phase now].
  destruct e as [|p| |id status|id]; simpl.
  - destruct live; [| done].
    unfold intervalCallback, commit, handleClearInterval, handleSnapInjection; simpl.
    destruct (bool_decide (S n = totalChecks)), enabled, flag, initialised; done.
  - destruct phase as [| |how]; [done | | done].
    unfold handleSnapInjectionResume, commit.
    destruct (withTimeout snapTimeoutMs p) as [waited [|]]; simpl;
      destruct flag, initialised; done.
  - by destruct initialised.
  - by destruct initialised.
  - by destruct initialised.
Qed.





(** The swallowing is [withTimeout]'s doing: past the [await],
    [handleSnapInjection] reaches its [setStateWithRef] only when the
    awaited promise is fulfilled. *)
Lemma handleSnapInjectionResume_flag (p : probe) (t : tracker) :
  checkingInjectedWeb3 (handleSnapInjectionResume p t)
  = match snd (withTimeout snapTimeoutMs p) with
    | Fulfilled => false
    | Rejected => checkingInjectedWeb3 t
    end.
Proof.
  unfold handleSnapInjectionResume.
  by destruct (withTimeout snapTimeoutMs p) as [waited [|]].
Qed.

(** A render leaves the flag alone. *)
Lemma commit_flag (before after : tracker) :
  checkingInjectedWeb3 (commit before after) = checkingInjectedWeb3 after.
Proof.
  unfold commit, rerender, effect. case_bool_decide; [done |].
  by destruct (intervalInitialisedRef (cleanup after)).
Qed.

(** The counter only grows. *)
Lemma step_injectCounter (e : event) (t : tracker) :
  (injectCounter t ≤ injectCounter (step e t))%nat.
Proof.
  destruct t as [flag flagRef initialised statuses statusesRef enabled live n phase now].
  destruct e as [|p| |id status|id]; simpl.
  - destruct live; [| done].
    unfold intervalCallback, commit, handleClearInterval, handleSnapInjection; simpl.
    destruct (bool_decide (S n = totalChecks)), enabled, flag, initialised; simpl; lia.
  - destruct phase as [| |how]; [done | | done].
    unfold handleSnapInjectionResume, commit.
    destruct (withTimeout snapTimeoutMs p) as [waited [|]]; simpl;
      destruct flag, initialised; done.
  - by destruct initialised.
  - by destruct initialised.
  - by destruct initialised.
Qed.

Lemma run_injectCounter (trace : list event) (t : tracker) :
  (injectCounter t ≤ injectCounter (run trace t))%nat.
Proof.
  revert t. induction trace as [|e trace IH]; intros t; [done |].
  simpl. etrans; [apply (step_injectCounter e) | apply IH].
Qed.

(** Once the ten ticks have come, the settling of the probe finds the
    flag already cleared or clears it, whatever happened in between. *)
Lemma settle_after_window
    (options : option ProviderOptions) (between : list event) (p : probe) :
  checkingInjectedWeb3
    (run (replicate totalChecks Tick ++ between ++ [Settle p]) (ExtensionsProvider options))
  = false.
Proof.
  rewrite app_assoc, run_app.
  set (t := run (replicate totalChecks Tick ++ between) (ExtensionsProvider options)).
  assert (Hinv : inv t) by apply inv_reachable.
  assert (Hn : (totalChecks ≤ injectCounter t)%nat).
  { unfold t. rewrite run_app, window_ticks.
    etrans; [| apply run_injectCounter]. by destruct (snapOption options). }
  destruct (checkingInjectedWeb3 t) eqn:Hflag; [| by apply run_keeps_false].
  destruct Hinv as (_ & _ & _ & Hphase). rewrite Hflag in Hphase.
  destruct (snapProbe t) as [| |how] eqn:Hprobe.
  - lia.
  - simpl. rewrite Hprobe, commit_flag, handleSnapInjectionResume_flag.
    by destruct (withTimeout_bounded snapTimeoutMs p) as [_ ->].
  - destruct Hphase as (_ & _ & Hfalse & _). congruence.
Qed.

(** *** A render inside the window *)

Lemma stalled_step (e : event) (t : tracker) : stalled t → stalled (step e t).
Proof.
  destruct t as [flag flagRef initialised statuses statusesRef enabled live n phase now].
  unfold stalled; simpl. intros (-> & -> & -> & ->).
  destruct e as [|p| |id status|id]; done.
Qed.

Lemma stalled_run (trace : list event) (t : tracker) : stalled t → stalled (run trace t).
Proof.
  revert t. induction trace as [|e trace IH]; intros t Ht; [exact Ht |].
  apply IH, stalled_step, Ht.
Qed.

Lemma stalled_step_cells (e : event) (t : tracker) :
  stalled t →
  injectCounter (step e t) = injectCounter t ∧ clock (step e t) = clock t.
Proof.
  destruct t as [flag flagRef initialised statuses statusesRef enabled live n phase now].
  unfold stalled; simpl. intros (-> & -> & -> & ->).
  destruct e as [|p| |id status|id]; done.
Qed.

Lemma stalled_run_cells (trace : list event) (t : tracker) :
  stalled t →
  injectCounter (run trace t) = injectCounter t ∧ clock (run trace t) = clock t.
Proof.
  revert t. induction trace as [|e trace IH]; intros t Ht; [done |].
  simpl. destruct (IH (step e t) (stalled_step e t Ht)) as [-> ->].
  by apply stalled_step_cells.
Qed.

(** A render that comes before the tenth tick runs the cleanup, which
    clears the timer; the effect does not start another one, since
    [intervalInitialisedRef] is already set.  No later event changes the
    flag. *)
Lemma render_inside_window_stalls
    (options : option ProviderOptions) (k : nat) (more : list event) :
  k < totalChecks →
  checkingInjectedWeb3 (run (replicate k Tick ++ Render :: more) (ExtensionsProvider options))
  = true.
Proof.
  intros Hk. rewrite run_app, (ticks_polling options k Hk). simpl.
  assert (Hst : stalled (step Render
    (mkTracker true true true ∅ ∅ (snapOption options) true k NotIssued
       (checkEveryMs * N.of_nat k)))) by done.
  apply (stalled_run more) in Hst. apply Hst.
Qed.

(** *** The flag *)

(** The flag is [true] when the provider is constructed.  After any
    sequence of events (ticks, settling of the probe, renders, status
    operations) it is [false] exactly when the counter has reached
    [totalChecks] and the awaited probe, if one was to be issued, has
    settled or timed out; it has then been set once, and not at all
    before.  The step that sets it is the tick that reaches the bound when
    the snap is disabled, and otherwise the settling of the awaited
    promise; that happens no sooner than [checkEveryMs * totalChecks] and
    no later than [checkEveryMs * totalChecks + snapTimeoutMs] after the
    mount.  Once [false] the flag stays [false].  Ten ticks followed, at
    some point, by the settling of the probe do set it, however the probe
    settles and whatever else happens after the tenth tick. *)
Theorem checkingInjectedWeb3_set_false_once
    (options : option ProviderOptions) (trace : list event) :
  let t := run trace (ExtensionsProvider options) in
  checkingInjectedWeb3 (initial options) = true
  ∧ checkingInjectedWeb3 (ExtensionsProvider options) = true
  ∧ (checkingInjectedWeb3 t = false ↔ injectCounter t = totalChecks ∧ probeDone t)
  ∧ setsFalse trace (ExtensionsProvider options)
    = (if checkingInjectedWeb3 t then 0 else 1)
  ∧ (∀ e, checkingInjectedWeb3 t = true → checkingInjectedWeb3 (step e t) = false →
       (e = Tick ∧ polkaGateSnapEnabled t = false ∧ S (injectCounter t) = totalChecks)
       ∨ (∃ p, e = Settle p ∧ snapProbe t = Awaiting))
  ∧ (∀ more, checkingInjectedWeb3 t = false → checkingInjectedWeb3 (run more t) = false)
  ∧ (clock t ≤ checkEveryMs * N.of_nat totalChecks + snapTimeoutMs)%N
  ∧ (checkingInjectedWeb3 t = false →
       (checkEveryMs * N.of_nat totalChecks ≤ clock t)%N
       ∧ (polkaGateSnapEnabled t = false →
            clock t = (checkEveryMs * N.of_nat totalChecks)%N))
  ∧ (∀ between p more,
       checkingInjectedWeb3
         (run (replicate totalChecks Tick ++ between ++ Settle p :: more)
            (ExtensionsProvider options))
       = false
       ∧ setsFalse (replicate totalChecks Tick ++ between ++ Settle p :: more)
           (ExtensionsProvider options) = 1).
Proof.
  intros t. pose proof (inv_reachable options trace) as Hinv. fold t in Hinv.
  split; [reflexivity |]. split; [reflexivity |].
  split; [by apply flag_false_iff_window_complete |].
  split; [rewrite setsFalse_count; fold t; by destruct (checkingInjectedWeb3 t) |].
  split; [intros e; apply flag_cleared_by |].
  split; [intros more; apply run_keeps_false |].
  split; [| split].
  - destruct Hinv as (_ & _ & _ & Hphase).
    destruct (snapProbe t) as [| |how], (checkingInjectedWeb3 t);
      unfold totalChecks, checkEveryMs, snapTimeoutMs in *; lia.
  - intros Hflag. destruct Hinv as (_ & _ & _ & Hphase). rewrite Hflag in Hphase.
    unfold totalChecks, checkEveryMs, snapTimeoutMs in *.
    destruct (snapProbe t) as [| |how].
    + destruct Hphase as (_ & _ & _ & Hclock). split; [lia | done].
    + destruct Hphase as (_ & Htrue & _). congruence.
    + destruct Hphase as (_ & Hon & _ & _ & _ & Hclock). split; [lia | congruence].
  - intros between p more.
    assert (Hready : checkingInjectedWeb3
              (run (replicate totalChecks Tick ++ between ++ Settle p :: more)
                 (ExtensionsProvider options)) = false).
    { rewrite (cons_middle (Settle p) between more), !app_assoc, run_app.
      rewrite <- app_assoc. apply run_keeps_false, settle_after_window. }
    split; [exact Hready |]. rewrite setsFalse_count, Hready. reflexivity.
Qed.

(** C2: a status recorded inside the polling window ends the detection
    without the flag ever being cleared.  The provider is mounted, the
    interval fires twice, and a consumer records ["talisman"] as
    ["installed"]; the render that follows runs the cleanup of the effect,
    which clears the interval, and the effect starts no other since
    [intervalInitialisedRef] is set.  Whatever comes after, the counter
    stays at two, no probe is issued, and the flag is [true] and has not
    been set to [false] once. *)
Theorem checkingInjectedWeb3_stuck_after_early_status (more : list event) :
  let trace := ([Tick; Tick; SetStatus "talisman" "installed"] ++ more)%list in
  let t := run trace (ExtensionsProvider None) in
  checkingInjectedWeb3 t = true
  ∧ setsFalse trace (ExtensionsProvider None) = 0
  ∧ injectedWeb3Interval t = false
  ∧ injectCounter t = 2
  ∧ snapProbe t = NotIssued.
Proof.
  intros trace t.
  assert (Hst : stalled (run [Tick; Tick; SetStatus "talisman" "installed"]
                           (ExtensionsProvider None))) by done.
  assert (Ht : t = run more (run [Tick; Tick; SetStatus "talisman" "installed"]
                               (ExtensionsProvider None))).
  { unfold t, trace. apply run_app. }
  destruct (stalled_run more _ Hst) as (Hlive & _ & Hprobe & Hflag).
  destruct (stalled_run_cells more _ Hst) as [Hcount _].
  rewrite <- Ht in Hlive, Hprobe, Hflag, Hcount.
  split; [exact Hflag |].
  split; [rewrite setsFalse_count; fold t; by rewrite Hflag |].
  split; [exact Hlive |]. split; [by rewrite Hcount | exact Hprobe].
Qed.

(** C3: whenever the probe has been issued and is awaited, its settling
    (fulfilled, rejected or cut short by the timeout) raises nothing and
    sets the flag, state cell and ref, to [false], within [snapTimeoutMs]. *)
Theorem snap_probe_outcome_swallowed
    (options : option ProviderOptions) (trace : list event) (p : probe) :
  let t := run trace (ExtensionsProvider options) in
  snapProbe t = Awaiting →
  checkingInjectedWeb3 (step (Settle p) t) = false
  ∧ checkingInjectedWeb3Ref (step (Settle p) t) = false
  ∧ snapProbe (step (Settle p) t) = Settled Fulfilled
  ∧ (clock (step (Settle p) t) ≤ clock t + snapTimeoutMs)%N.
Proof.
  intros t. generalize t. clear t.
  intros [flag flagRef initialised statuses statusesRef enabled live n phase now].
  simpl. intros ->. unfold handleSnapInjectionResume, commit.
  destruct (withTimeout_bounded snapTimeoutMs p) as [Hle Hhow].
  destruct (withTimeout snapTimeoutMs p) as [waited how]; simpl in Hle, Hhow. subst how.
  destruct flag, initialised; simpl; repeat split; lia.
Qed.

Lemma snap_probe_outcome_swallowed_witness :
  let options := Some (mkOptions None (Some true)) in
  let t := run (replicate totalChecks Tick) (ExtensionsProvider options) in
  snapProbe t = Awaiting
  ∧ checkingInjectedWeb3 (step (Settle (ProbeResolves 40)) t) = false
  ∧ checkingInjectedWeb3 (step (Settle (ProbeRejects 120)) t) = false
  ∧ checkingInjectedWeb3 (step (Settle ProbeHangs) t) = false.
Proof.
  intros options t.
  assert (H : snapProbe t = Awaiting) by (vm_compute; reflexivity).
  split; [exact H |]. split; [| split].
  - exact (proj1 (snap_probe_outcome_swallowed options (replicate totalChecks Tick)
                    (ProbeResolves 40) H)).
  - exact (proj1 (snap_probe_outcome_swallowed options (replicate totalChecks Tick)
                    (ProbeRejects 120) H)).
  - exact (proj1 (snap_probe_outcome_swallowed options (replicate totalChecks Tick)
                    ProbeHangs H)).
Defined.



(** C9: [chainSafeSnapEnabled] is never read.  Two providers whose options
    differ in it alone are in the same state after the same events, and so
    hand the same context value to their consumers: mapping, flag and the
    answers of the three queries.  [polkagateSnapEnabled] is read: after
    ten ticks the flag is cleared without it and still set with it. *)
Theorem chainSafeSnapEnabled_unused
    (chainSafe chainSafe' polkagate : option bool) (trace : list event)
    (extensions : gmap string ExtensionConfig) :
  let t := run trace (ExtensionsProvider (Some (mkOptions chainSafe polkagate))) in
  let t' := run trace (ExtensionsProvider (Some (mkOptions chainSafe' polkagate))) in
  t = t'
  ∧ contextValue extensions t = contextValue extensions t'
  ∧ extensionsStatusRef t = extensionsStatusRef t'
  ∧ checkingInjectedWeb3 t = checkingInjectedWeb3 t'
  ∧ (∀ id, extensionInstalled t id = extensionInstalled t' id)
  ∧ (∀ id, extensionCanConnect t id = extensionCanConnect t' id)
  ∧ checkingInjectedWeb3
      (run (replicate totalChecks Tick)
         (ExtensionsProvider (Some (mkOptions chainSafe (Some false))))) = false
  ∧ checkingInjectedWeb3
      (run (replicate totalChecks Tick)
         (ExtensionsProvider (Some (mkOptions chainSafe (Some true))))) = true.
Proof.
  intros t t'. assert (Heq : t = t') by reflexivity.
  split; [exact Heq |]. rewrite <- Heq. repeat split; reflexivity.
Qed.

(** * Further properties *)

(** ** The provider *)

Lemma inv_before_bound (t : tracker) :
  inv t → injectCounter t < totalChecks →
  snapProbe t = NotIssued ∧ checkingInjectedWeb3 t = true ∧ intervalInitialisedRef t = true.
Proof.
  intros (_ & _ & Hinit & Hphase) Hn. unfold totalChecks in *.
  destruct (snapProbe t) as [| |how], (checkingInjectedWeb3 t);
    repeat match goal with H : _ ∧ _ |- _ => destruct H end; try done; lia.
Qed.

Lemma rendersProvider_stalls (e : event) (t : tracker) :
  rendersProvider e = true →
  snapProbe t = NotIssued → checkingInjectedWeb3 t = true →
  intervalInitialisedRef t = true →
  stalled (step e t) ∧ injectCounter (step e t) = injectCounter t.
Proof.
  destruct t as [flag flagRef initialised statuses statusesRef enabled live n phase now].
  simpl. intros He -> -> ->. destruct e as [|p| |id status|id]; done.
Qed.

(** A render of the provider before the counter has reached the bound,
    be it caused by its parent or by a status operation, ends the
    detection for good: the cleanup clears the timer, the effect starts no
    other, the counter stays where it was and the flag is never cleared. *)
Theorem render_before_bound_keeps_checking
    (options : option ProviderOptions) (trace : list event) (e : event)
    (more : list event) :
  let t := run trace (ExtensionsProvider options) in
  injectCounter t < totalChecks →
  rendersProvider e = true →
  checkingInjectedWeb3 (run more (step e t)) = true
  ∧ injectCounter (run more (step e t)) = injectCounter t
  ∧ injectedWeb3Interval (run more (step e t)) = false
  ∧ snapProbe (run more (step e t)) = NotIssued.
Proof.
  intros t Hn He.
  destruct (inv_before_bound t (inv_reachable options trace) Hn) as (Hph & Hflag & Hinit).
  destruct (rendersProvider_stalls e t He Hph Hflag Hinit) as [Hst Hcount].
  destruct (stalled_run_cells more _ Hst) as [Hcount' _].
  destruct (stalled_run more _ Hst) as (Hlive & _ & Hprobe & Hchecking).
  repeat split; try done. by rewrite Hcount'.
Qed.

Lemma render_before_bound_keeps_checking_witness :
  let t := run [Tick; Tick] (ExtensionsProvider None) in
  injectCounter t < totalChecks
  ∧ checkingInjectedWeb3
      (run (replicate 20 Tick) (step (SetStatus "talisman" "installed") t)) = true.
Proof.
  intros t.
  assert (Hn : injectCounter t < totalChecks) by (vm_compute; lia).
  split; [exact Hn |].
  exact (proj1 (render_before_bound_keeps_checking None [Tick; Tick]
                  (SetStatus "talisman" "installed") (replicate 20 Tick) Hn eq_refl)).
Defined.

Lemma step_timer_stays_cleared (e : event) (t : tracker) :
  intervalInitialisedRef t = true → injectedWeb3Interval t = false →
  intervalInitialisedRef (step e t) = true ∧ injectedWeb3Interval (step e t) = false.
Proof.
  destruct t as [flag flagRef initialised statuses statusesRef enabled live n phase now].
  simpl. intros -> ->. destruct e as [|p| |id status|id]; simpl; try done.
  destruct phase as [| |how]; try done.
  unfold handleSnapInjectionResume, commit.
  destruct (withTimeout snapTimeoutMs p) as [waited [|]]; simpl; by destruct flag.
Qed.

Lemma run_timer_stays_cleared (trace : list event) (t : tracker) :
  intervalInitialisedRef t = true → injectedWeb3Interval t = false →
  injectedWeb3Interval (run trace t) = false.
Proof.
  revert t. induction trace as [|e trace IH]; intros t Hinit Hlive; [exact Hlive |].
  destruct (step_timer_stays_cleared e t Hinit Hlive). by apply IH.
Qed.

(** The provider starts one timer in its life.  Once that timer is
    cleared, whether at the bound or by a cleanup, no later render starts
    another, and the counter never passes [totalChecks]. *)
Theorem interval_started_once
    (options : option ProviderOptions) (trace more : list event) :
  let t := run trace (ExtensionsProvider options) in
  injectedWeb3Interval (initial options) = false
  ∧ injectedWeb3Interval (ExtensionsProvider options) = true
  ∧ (injectCounter t ≤ totalChecks)%nat
  ∧ (injectedWeb3Interval t = true → (injectCounter t < totalChecks)%nat)
  ∧ (injectedWeb3Interval t = false → injectedWeb3Interval (run more t) = false).
Proof.
  intros t. pose proof (inv_reachable options trace) as Hinv. fold t in Hinv.
  split; [reflexivity |]. split; [reflexivity |].
  destruct Hinv as (_ & _ & Hinit & Hphase). unfold totalChecks in *.
  split; [| split].
  - destruct (snapProbe t) as [| |how], (checkingInjectedWeb3 t);
      repeat match goal with H : _ ∧ _ |- _ => destruct H end; lia.
  - intros Hlive.
    destruct (snapProbe t) as [| |how], (checkingInjectedWeb3 t);
      repeat match goal with H : _ ∧ _ |- _ => destruct H end; try congruence; lia.
  - intros Hlive. by apply run_timer_stays_cleared.
Qed.

Lemma step_settled_stays (e : event) (t : tracker) (how : settled) :
  intervalInitialisedRef t = true → injectedWeb3Interval t = false →
  snapProbe t = Settled how → snapProbe (step e t) = Settled how.
Proof.
  destruct t as [flag flagRef initialised statuses statusesRef enabled live n phase now].
  simpl. intros -> -> ->. by destruct e as [|p| |id status|id].
Qed.

Lemma run_settled_stays (trace : list event) (t : tracker) (how : settled) :
  intervalInitialisedRef t = true → injectedWeb3Interval t = false →
  snapProbe t = Settled how → snapProbe (run trace t) = Settled how.
Proof.
  revert t. induction trace as [|e trace IH]; intros t Hinit Hlive Hph; [exact Hph |].
  destruct (step_timer_stays_cleared e t Hinit Hlive).
  apply IH; [done | done |]. by apply step_settled_stays.
Qed.

Lemma run_polkaGateSnapEnabled (trace : list event) (t : tracker) :
  polkaGateSnapEnabled (run trace t) = polkaGateSnapEnabled t.
Proof.
  revert t. induction trace as [|e trace IH]; intros t; [done |].
  simpl. by rewrite IH, step_polkaGateSnapEnabled.
Qed.

Lemma probe_not_issued_iff (t : tracker) :
  inv t →
  snapProbe t = NotIssued
  ↔ polkaGateSnapEnabled t = false ∨ injectCounter t < totalChecks.
Proof.
  intros (_ & _ & _ & Hphase). unfold totalChecks in *.
  destruct (snapProbe t) as [| |how], (checkingInjectedWeb3 t); split;
    try (intros [? | ?]); try intros ?;
    repeat match goal with H : _ ∧ _ |- _ => destruct H end;
    try done; try congruence; try lia; try (by left); try (by right).
Qed.

(** The snap probe is issued only with the snap enabled and only once the
    counter has reached the bound: until then, and always with the snap
    disabled, no probe exists.  It is issued once: a probe that was issued
    is never issued again, and one that has settled stays settled. *)
Theorem probe_issued_once
    (options : option ProviderOptions) (trace more : list event) :
  let t := run trace (ExtensionsProvider options) in
  (snapProbe t = NotIssued
   ↔ polkaGateSnapEnabled t = false ∨ injectCounter t < totalChecks)
  ∧ polkaGateSnapEnabled t = snapOption options
  ∧ (snapProbe t ≠ NotIssued → snapProbe (run more t) ≠ NotIssued)
  ∧ (∀ how, snapProbe t = Settled how → snapProbe (run more t) = Settled how).
Proof.
  intros t. pose proof (inv_reachable options trace) as Hinv. fold t in Hinv.
  split; [by apply probe_not_issued_iff |].
  split; [unfold t; by rewrite run_polkaGateSnapEnabled |].
  split.
  - intros Hissued Hnot.
    apply (probe_not_issued_iff _ (inv_run more t Hinv)) in Hnot.
    rewrite run_polkaGateSnapEnabled in Hnot.
    pose proof (run_injectCounter more t) as Hmono.
    apply Hissued, (probe_not_issued_iff t Hinv).
    destruct Hnot as [Hoff | Hlt]; [by left | right; lia].
  - intros how Hset. destruct Hinv as (_ & _ & Hinit & Hphase).
    rewrite Hset in Hphase. destruct Hphase as (_ & _ & _ & Hlive & _).
    by apply run_settled_stays.
Qed.

(** The state cells and the refs that mirror them never part: after any
    sequence of events the mapping handed to consumers (the ref) is the
    one the queries read (the state cell), so [extensionInstalled] and
    [extensionCanConnect] answer for the mapping the consumer sees, reading
    its records and, where it has none, the members it inherits from
    [Object.prototype]; and the flag's ref holds the flag. *)
Theorem state_and_ref_agree
    (options : option ProviderOptions) (trace : list event) (id : string) :
  let t := run trace (ExtensionsProvider options) in
  extensionsStatus t = extensionsStatusRef t
  ∧ checkingInjectedWeb3Ref t = checkingInjectedWeb3 t
  ∧ (extensionInstalled t id = true
     ↔ is_Some (extensionsStatusRef t !! id) ∨ id ∈ objectPrototypeMembers)
  ∧ (extensionCanConnect t id = true
     ↔ (∃ status, extensionsStatusRef t !! id = Some status ∧ status ≠ "connected")
       ∨ (extensionsStatusRef t !! id = None ∧ id ∈ objectPrototypeMembers)).
Proof.
  intros t. destruct (inv_reachable options trace) as (Hflag & Hmap & _). fold t in Hflag, Hmap.
  split; [exact Hmap |]. split; [exact Hflag |].
  rewrite <- Hmap. split; [apply extensionInstalled_true | apply extensionCanConnect_true].
Qed.

(** Removing a status leaves no record for the id, whatever its status
    was.  The queries then answer what they answer for any id without a
    record: [false], except for the name of a member of [Object.prototype],
    which they go on reporting as installed and connectable.  Every other
    record is as it was, and removing the id again changes nothing. *)
Theorem removeExtensionStatus_uninstalls (t : tracker) (id other : string) :
  extensionsStatus (removeExtensionStatus id t) !! id = None
  ∧ extensionInstalled (removeExtensionStatus id t) id
    = bool_decide (id ∈ objectPrototypeMembers)
  ∧ extensionCanConnect (removeExtensionStatus id t) id
    = bool_decide (id ∈ objectPrototypeMembers)
  ∧ (other ≠ id →
       extensionsStatusRef (removeExtensionStatus id t) !! other
       = extensionsStatusRef t !! other)
  ∧ removeExtensionStatus id (removeExtensionStatus id t) = removeExtensionStatus id t.
Proof.
  assert (Hnone : extensionsStatus (removeExtensionStatus id t) !! id = None).
  { rewrite (proj2 (removeExtensionStatus_cells id t)). apply lookup_delete_eq. }
  split; [exact Hnone |].
  assert (Hread : readProperty (extensionsStatus (removeExtensionStatus id t)) id
                  = inherited id).
  { unfold readProperty. by rewrite Hnone. }
  unfold extensionCanConnect, extensionInstalled. rewrite Hread. unfold inherited.
  split; [by case_bool_decide |]. split; [by case_bool_decide |].
  split; [intros Hne; by apply lookup_delete_ne |].
  unfold removeExtensionStatus, setStateWithRef,
    setExtensionsStatus, assignExtensionsStatusRef; simpl.
  by rewrite delete_delete_eq.
Qed.

(** Status operations on different ids do not interfere: setting two
    statuses, or setting one and removing another, gives the same provider
    in either order. *)
Theorem status_operations_commute
    (t : tracker) (id other : string) (status status' : ExtensionStatus) :
  id ≠ other →
  setExtensionStatus id status (setExtensionStatus other status' t)
  = setExtensionStatus other status' (setExtensionStatus id status t)
  ∧ removeExtensionStatus id (setExtensionStatus other status' t)
    = setExtensionStatus other status' (removeExtensionStatus id t)
  ∧ removeExtensionStatus id (removeExtensionStatus other t)
    = removeExtensionStatus other (removeExtensionStatus id t).
Proof.
  intros Hne.
  unfold setExtensionStatus, removeExtensionStatus, setStateWithRef,
    setExtensionsStatus, assignExtensionsStatusRef; simpl.
  rewrite (insert_insert_ne _ id other) by done.
  rewrite (delete_insert_ne _ id other) by done.
  by rewrite (delete_delete _ id other).
Qed.

Lemma status_operations_commute_witness :
  let t := ExtensionsProvider None in
  "talisman" ≠ "polkagate"
  ∧ setExtensionStatus "talisman" "connected" (setExtensionStatus "polkagate" "installed" t)
    = setExtensionStatus "polkagate" "installed" (setExtensionStatus "talisman" "connected" t).
Proof.
  intros t. assert (Hne : "talisman" ≠ "polkagate") by discriminate.
  split; [exact Hne |].
  exact (proj1 (status_operations_commute t "talisman" "polkagate"
                  "connected" "installed" Hne)).
Defined.

(** ** Package checks *)

Lemma filter_fst_NoDup {B : Type} (f : string * B → bool) (l : list (string * B)) :
  NoDup (l.*1) → NoDup ((List.filter f l).*1).
Proof.
  induction l as [|[k v] l IH]; simpl; [done |].
  intros Hnd. apply NoDup_cons in Hnd as [Hk Hnd].
  destruct (f (k, v)); simpl; [| by apply IH].
  apply NoDup_cons. split; [| by apply IH].
  intros Hin. apply Hk.
  apply list_elem_of_fmap in Hin as ([k' v'] & -> & Hin).
  apply list_elem_of_In, filter_In in Hin as [Hin _].
  apply list_elem_of_fmap. exists (k', v'). split; [done | by apply list_elem_of_In].
Qed.

Lemma prebuild_found_keys {JsonValue : Type} (requiredProperties : list string)
    (sourcePackageJson : gmap string JsonValue) (key : string) :
  key ∈ (List.filter (λ entry : string * JsonValue, includes requiredProperties entry.1)
           (map_to_list sourcePackageJson)).*1
  ↔ key ∈ requiredProperties ∧ is_Some (sourcePackageJson !! key).
Proof.
  rewrite list_elem_of_fmap. split.
  - intros ([k v] & -> & Hin).
    apply list_elem_of_In, filter_In in Hin as [Hin Hreq]. simpl in *.
    apply includes_true in Hreq. apply list_elem_of_In, elem_of_map_to_list in Hin.
    split; [done | by eexists].
  - intros [Hreq [v Hv]]. exists (key, v). split; [done |].
    apply list_elem_of_In, filter_In. split.
    + by apply list_elem_of_In, elem_of_map_to_list.
    + by apply includes_true.
Qed.

(** [prebuild] accepts a package exactly when the required files are
    there, every required property is a key of its package.json, and the
    list of required properties names none twice: since found entries are
    counted against the length of that list, a repeated name makes every
    package fail. *)
Theorem prebuild_true_iff {JsonValue : Type} (requiredProperties : list string)
    (filesExist : bool) (sourcePackageJson : gmap string JsonValue) :
  prebuild requiredProperties filesExist sourcePackageJson = true
  ↔ filesExist = true
    ∧ NoDup requiredProperties
    ∧ ∀ property, property ∈ requiredProperties → is_Some (sourcePackageJson !! property).
Proof.
  unfold prebuild.
  set (found := List.filter (λ entry : string * JsonValue, includes requiredProperties entry.1)
                  (map_to_list sourcePackageJson)).
  assert (Hnd : NoDup (found.*1))
    by apply filter_fst_NoDup, NoDup_fst_map_to_list.
  assert (Hkeys : ∀ key, key ∈ found.*1
            ↔ key ∈ requiredProperties ∧ is_Some (sourcePackageJson !! key))
    by apply prebuild_found_keys.
  assert (Hlen : length found = length (found.*1)) by by rewrite length_fmap.
  destruct filesExist; simpl; [| split; [done | by intros [? _]]].
  destruct (length found =? length requiredProperties)%nat eqn:Heq; simpl.
  - apply Nat.eqb_eq in Heq. rewrite Hlen in Heq. split; [intros _ | done].
    split; [done |].
    assert (Hincl : incl (found.*1) requiredProperties).
    { intros key Hin. apply list_elem_of_In. by apply list_elem_of_In, Hkeys in Hin as [? _]. }
    apply NoDup_ListNoDup in Hnd. split.
    + apply NoDup_ListNoDup. eapply NoDup_incl_NoDup; [exact Hnd | lia | done].
    + intros property Hin. apply list_elem_of_In in Hin.
      eapply NoDup_length_incl in Hin; [| exact Hnd | lia | done].
      by apply list_elem_of_In, Hkeys in Hin as [_ ?].
  - apply Nat.eqb_neq in Heq. rewrite Hlen in Heq. split; [done |].
    intros (_ & Hreq & Hall). exfalso. apply Heq.
    apply NoDup_ListNoDup in Hnd, Hreq.
    apply Nat.le_antisymm; apply NoDup_incl_length; try done.
    + intros key Hin. apply list_elem_of_In. by apply list_elem_of_In, Hkeys in Hin as [? _].
    + intros key Hin. apply list_elem_of_In, Hkeys. apply list_elem_of_In in Hin.
      split; [done | by apply Hall].
Qed.

(** ** Comparing with nulls last *)

(** On values that [<] orders strictly and totally, [sortWithNull] is a
    consistent comparator in both directions: it answers 0 exactly for
    equal arguments, swapping the arguments negates the answer, and
    "not after" is transitive. *)
Theorem sortWithNull_consistent {A : Type} `{EqDecision A}
    (lessThan : A → A → bool) (ascending : bool) (a b c : option A) :
  (∀ x y, lessThan x y = true → lessThan y x = false) →
  (∀ x y, x ≠ y → lessThan x y = true ∨ lessThan y x = true) →
  (∀ x y z, lessThan x y = true → lessThan y z = true → lessThan x z = true) →
  (sortWithNull lessThan ascending a b = 0%Z ↔ a = b)
  ∧ sortWithNull lessThan ascending b a = (- sortWithNull lessThan ascending a b)%Z
  ∧ ((sortWithNull lessThan ascending a b ≤ 0)%Z →
     (sortWithNull lessThan ascending b c ≤ 0)%Z →
     (sortWithNull lessThan ascending a c ≤ 0)%Z).
Proof.
  intros Hasym Htotal Htrans. unfold sortWithNull. split; [| split].
  - destruct (decide (a = b)) as [Hab | Hab]; [done |].
    split; [| done]. destruct a as [x|], b as [y|]; try done.
    destruct ascending, (lessThan x y); done.
  - destruct (decide (a = b)) as [-> | Hab].
    + by rewrite decide_True.
    + rewrite decide_False by congruence.
      destruct a as [x|], b as [y|]; try done.
      assert (Hxy : x ≠ y) by congruence.
      destruct (lessThan x y) eqn:Hlt.
      * rewrite (Hasym _ _ Hlt). by destruct ascending.
      * destruct (Htotal x y Hxy) as [? | ->]; [congruence |]. by destruct ascending.
  - destruct (decide (a = b)) as [-> | Hab]; [done |].
    destruct (decide (b = c)) as [<- | Hbc]; [by rewrite decide_False by done |].
    destruct (decide (a = c)) as [_ | Hac]; [done |].
    destruct a as [x|], b as [y|], c as [z|]; try done.
    assert (Hxy : x ≠ y) by congruence. assert (Hyz : y ≠ z) by congruence.
    destruct ascending.
    + destruct (lessThan x y) eqn:Hlt1; [| done].
      destruct (lessThan y z) eqn:Hlt2; [| done].
      by rewrite (Htrans _ _ _ Hlt1 Hlt2).
    + destruct (lessThan x y) eqn:Hlt1; [done |].
      destruct (lessThan y z) eqn:Hlt2; [done |].
      destruct (Htotal x y Hxy) as [? | Hyx]; [congruence |].
      destruct (Htotal y z Hyz) as [? | Hzy]; [congruence |].
      by rewrite (Hasym _ _ (Htrans _ _ _ Hzy Hyx)).
Qed.

Lemma sortWithNull_consistent_witness :
  (∀ x y : Z, Z.ltb x y = true → Z.ltb y x = false)
  ∧ (∀ x y : Z, x ≠ y → Z.ltb x y = true ∨ Z.ltb y x = true)
  ∧ (∀ x y z : Z, Z.ltb x y = true → Z.ltb y z = true → Z.ltb x z = true)
  ∧ sortWithNull Z.ltb false (Some 7%Z) (Some 3%Z)
    = (- sortWithNull Z.ltb false (Some 3%Z) (Some 7%Z))%Z.
Proof.
  assert (Hasym : ∀ x y : Z, Z.ltb x y = true → Z.ltb y x = false) by (intros; lia).
  assert (Htotal : ∀ x y : Z, x ≠ y → Z.ltb x y = true ∨ Z.ltb y x = true) by (intros; lia).
  assert (Htrans : ∀ x y z : Z, Z.ltb x y = true → Z.ltb y z = true → Z.ltb x z = true)
    by (intros; lia).
  split; [exact Hasym |]. split; [exact Htotal |]. split; [exact Htrans |].
  exact (proj1 (proj2 (sortWithNull_consistent Z.ltb false (Some 3%Z) (Some 7%Z) None
                         Hasym Htotal Htrans))).
Defined.

(** [null] comes after every other value whichever the direction, so a
    descending sort does not bring nulls to the front; on the other values
    descending is ascending reversed. *)
Theorem sortWithNull_nulls_last {A : Type} `{EqDecision A}
    (lessThan : A → A → bool) (ascending : bool) (x y : A) :
  sortWithNull lessThan ascending (Some x) None = (-1)%Z
  ∧ sortWithNull lessThan ascending None (Some x) = 1%Z
  ∧ sortWithNull lessThan ascending None None = 0%Z
  ∧ sortWithNull lessThan false (Some x) (Some y)
    = (- sortWithNull lessThan true (Some x) (Some y))%Z.
Proof.
  unfold sortWithNull. repeat split.
  destruct (decide (Some x = Some y)); [done |]. by destruct (lessThan x y).
Qed.

(** ** Comparing lists of objects *)

Section ObjectListFacts.
Context {V : Type} `{EqDecision V}.
Implicit Types (x y item : gmap string V) (items fresh stale : list (gmap string V)).
Implicit Types (keys : list string).

Lemma sameAt_true x y (key : string) :
  sameAt x y key = true ↔ ∃ v, x !! key = Some v ∧ y !! key = Some v.
Proof.
  unfold sameAt.
  destruct (x !! key) as [v|], (y !! key) as [w|].
  - rewrite (bool_decide_eq_true_2 (is_Some (Some v))) by by eexists.
    rewrite (bool_decide_eq_true_2 (is_Some (Some w))) by by eexists.
    simpl. rewrite bool_decide_eq_true. split.
    + intros [= ->]. by exists w.
    + intros (u & [= ->] & [= ->]). done.
  - rewrite (bool_decide_eq_false_2 (is_Some None)) by by intros [? ?].
    rewrite orb_true_r. split; [done | by intros (u & _ & ?)].
  - rewrite (bool_decide_eq_false_2 (is_Some None)) by by intros [? ?].
    simpl. split; [done | by intros (u & ? & _)].
  - rewrite (bool_decide_eq_false_2 (is_Some None)) by by intros [? ?].
    simpl. split; [done | by intros (u & ? & _)].
Qed.

Lemma sameAt_sym x y (key : string) : sameAt x y key = sameAt y x key.
Proof.
  apply eq_true_iff_eq. rewrite !sameAt_true.
  split; intros (v & ? & ?); by exists v.
Qed.

Lemma forallb_pointwise {B : Type} (f g : B → bool) (l : list B) :
  (∀ b, f b = g b) → forallb f l = forallb g l.
Proof. intros Hfg. induction l as [|b l IH]; simpl; [done |]. by rewrite Hfg, IH. Qed.

Lemma find_pointwise {B : Type} (f g : B → bool) (l : list B) :
  (∀ b, f b = g b) → List.find f l = List.find g l.
Proof. intros Hfg. induction l as [|b l IH]; simpl; [done |]. by rewrite Hfg, IH. Qed.

Lemma findMatch_true keys items item :
  findMatch keys items item = true
  ↔ ∃ other, other ∈ items
      ∧ ∀ key, key ∈ keys → ∃ v, other !! key = Some v ∧ item !! key = Some v.
Proof.
  unfold findMatch.
  destruct (List.find _ items) as [other|] eqn:Hfind.
  - apply find_some in Hfind as [Hin Hall]. split; [intros _ | done].
    exists other. split; [by apply list_elem_of_In |].
    intros key Hkey. apply sameAt_true.
    by apply (proj1 (forallb_forall _ _) Hall), list_elem_of_In.
  - split; [done |]. intros (other & Hin & Hall).
    apply list_elem_of_In in Hin.
    pose proof (find_none _ _ Hfind other Hin) as Hno. simpl in Hno.
    rewrite <- Hno. apply forallb_forall.
    intros key Hkey. apply sameAt_true, Hall. by apply list_elem_of_In.
Qed.

Lemma matchedProperties_filter stale fresh keys :
  matchedProperties stale fresh keys
  = if (length keys =? 0)%nat then [] else List.filter (findMatch keys stale) fresh.
Proof.
  unfold matchedProperties. destruct (length keys =? 0)%nat; [done |].
  apply filter_ext. intros x. unfold findMatch.
  erewrite find_pointwise; [done |].
  intros y. simpl. apply forallb_pointwise. intros key. unfold sameAt.
  by rewrite orb_comm.
Qed.

(** [removedFrom] is [addedTo] with the two lists exchanged. *)
Theorem removedFrom_addedTo fresh stale keys :
  removedFrom fresh stale keys = addedTo stale fresh keys.
Proof.
  unfold removedFrom, addedTo. destruct (length keys =? 0)%nat; [done |].
  apply filter_ext. intros staleItem. unfold findMatch. f_equal.
  erewrite find_pointwise; [done |].
  intros freshItem. simpl. apply forallb_pointwise. intros key. unfold sameAt.
  by rewrite orb_comm.
Qed.

Lemma elem_of_addedTo fresh stale keys item :
  item ∈ addedTo fresh stale keys
  ↔ keys ≠ []
    ∧ item ∈ fresh
    ∧ ∀ other, other ∈ stale →
        ¬ ∀ key, key ∈ keys → ∃ v, other !! key = Some v ∧ item !! key = Some v.
Proof.
  unfold addedTo. destruct keys as [|key keys]; simpl.
  - split; [by intros ?%elem_of_nil | by intros [? _]].
  - rewrite list_elem_of_In, filter_In, <- list_elem_of_In, negb_true_iff.
    rewrite <- not_true_iff_false, findMatch_true.
    split.
    + intros [Hin Hno]. split; [done |]. split; [done |].
      intros other Hother Hall. apply Hno. by exists other.
    + intros (_ & Hin & Hno). split; [done |].
      intros (other & Hother & Hall). by apply (Hno other).
Qed.


(** An item of [fresh] is reported as added exactly when there is at least
    one key and no item of [stale] agrees with it on every key, where
    agreeing on a key means that both have it, with the same value.  With
    no keys nothing is reported. *)
Theorem addedTo_spec fresh stale keys item :
  item ∈ addedTo fresh stale keys
  ↔ keys ≠ []
    ∧ item ∈ fresh
    ∧ ∀ other, other ∈ stale →
        ¬ ∀ key, key ∈ keys → ∃ v, other !! key = Some v ∧ item !! key = Some v.
Proof. apply elem_of_addedTo. Qed.

Lemma addedTo_matchedProperties_disjoint fresh stale keys item :
  item ∈ addedTo fresh stale keys → item ∉ matchedProperties stale fresh keys.
Proof.
  rewrite matchedProperties_filter. unfold addedTo.
  destruct (length keys =? 0)%nat; [by intros ?%elem_of_nil |].
  rewrite !list_elem_of_In, !filter_In. intros [_ Hno] [_ Hyes].
  rewrite Hyes in Hno. done.
Qed.

(** Against the same list of known items, every item of [fresh] is either
    added or matched, never both: the two results split [fresh]. *)
Theorem addedTo_matchedProperties_split fresh stale keys item :
  length (addedTo fresh stale keys) + length (matchedProperties stale fresh keys)
  = (if (length keys =? 0)%nat then 0 else length fresh)
  ∧ ¬ (item ∈ addedTo fresh stale keys ∧ item ∈ matchedProperties stale fresh keys)
  ∧ (item ∈ matchedProperties stale fresh keys
     ↔ keys ≠ []
       ∧ item ∈ fresh
       ∧ ∃ other, other ∈ stale
           ∧ ∀ key, key ∈ keys → ∃ v, other !! key = Some v ∧ item !! key = Some v).
Proof.
  split; [| split].
  - rewrite matchedProperties_filter. unfold addedTo.
    destruct (length keys =? 0)%nat; [done |].
    rewrite Nat.add_comm. apply filter_length.
  - intros [Hadded Hmatched].
    by apply (addedTo_matchedProperties_disjoint fresh stale keys item).
  - rewrite matchedProperties_filter. destruct keys as [|key keys]; simpl.
    + split; [by intros ?%elem_of_nil | by intros [? _]].
    + rewrite list_elem_of_In, filter_In, <- list_elem_of_In, findMatch_true.
      split; [intros [? ?]; by repeat split | intros (_ & ? & ?); by split].
Qed.

(** An item that lacks one of the keys agrees with nothing, itself
    included: it is always reported as added and never as matched.
    Comparing a list with itself therefore reports exactly its items that
    lack a key. *)
Theorem addedTo_missing_key items stale keys item (key : string) :
  key ∈ keys → item !! key = None → item ∈ items →
  item ∈ addedTo items stale keys
  ∧ item ∈ addedTo items items keys
  ∧ (item ∉ matchedProperties stale items keys)
  ∧ addedTo items items keys
    = List.filter
        (λ it, negb (forallb (λ k, bool_decide (is_Some (it !! k))) keys)) items.
Proof.
  intros Hkey Hnone Hin.
  assert (Hne : keys ≠ []) by (intros ->; by apply elem_of_nil in Hkey).
  assert (Hadded : ∀ others, item ∈ addedTo items others keys).
  { intros others. apply elem_of_addedTo. split; [done |]. split; [done |].
    intros other _ Hall. destruct (Hall key Hkey) as (v & _ & Hv). congruence. }
  split; [apply Hadded |]. split; [apply Hadded |]. split.
  - by apply addedTo_matchedProperties_disjoint.
  - unfold addedTo. destruct keys as [|k0 keys0]; [done |]. simpl length. simpl Nat.eqb.
    cbv iota. apply filter_ext_in. intros it Hit. f_equal.
    apply eq_true_iff_eq. rewrite findMatch_true, forallb_forall. split.
    + intros (other & _ & Hall) k Hk. apply bool_decide_eq_true.
      destruct (Hall k) as (v & _ & Hv); [by apply list_elem_of_In | by eexists].
    + intros Hall. exists it. split; [by apply list_elem_of_In |].
      intros k Hk. apply list_elem_of_In, Hall, bool_decide_eq_true in Hk as [v Hv].
      by exists v.
Qed.

End ObjectListFacts.

Lemma addedTo_missing_key_witness :
  let complete : gmap string Z := {[ "address" := 1%Z; "source" := 2%Z ]} in
  let partial : gmap string Z := {[ "address" := 1%Z ]} in
  "source" ∈ ["address"; "source"]
  ∧ partial !! "source" = None
  ∧ partial ∈ [complete; partial]
  ∧ partial ∈ addedTo [complete; partial] [complete; partial] ["address"; "source"].
Proof.
  intros complete partial.
  assert (Hkey : "source" ∈ ["address"; "source"])
    by (apply elem_of_cons; right; apply elem_of_cons; by left).
  assert (Hnone : partial !! "source" = None) by (vm_compute; reflexivity).
  assert (Hin : partial ∈ [complete; partial])
    by (apply elem_of_cons; right; apply elem_of_cons; by left).
  split; [exact Hkey |]. split; [exact Hnone |]. split; [exact Hin |].
  exact (proj1 (proj2 (addedTo_missing_key [complete; partial] [] ["address"; "source"]
                         partial "source" Hkey Hnone Hin))).
Defined.

(** ** Deep merge *)

Lemma getField_assignField_eq {B : Type} (key : string) (v : B) (fields : list (string * B)) :
  getField key (assignField key v fields) = Some v.
Proof.
  induction fields as [|[k w] fields IH]; simpl.
  - by rewrite decide_True.
  - destruct (decide (k = key)) as [-> | Hne]; simpl.
    + by rewrite decide_True.
    + by rewrite decide_False.
Qed.

Lemma getField_assignField_ne {B : Type} (key other : string) (v : B)
    (fields : list (string * B)) :
  key ≠ other → getField other (assignField key v fields) = getField other fields.
Proof.
  intros Hne. induction fields as [|[k w] fields IH]; simpl.
  - by rewrite decide_False.
  - destruct (decide (k = key)) as [-> | Hk]; simpl.
    + by rewrite !decide_False.
    + by rewrite IH.
Qed.

Lemma assignField_same {B : Type} (key : string) (v : B) (fields : list (string * B)) :
  getField key fields = Some v → assignField key v fields = fields.
Proof.
  induction fields as [|[k w] fields IH]; simpl; [done |].
  destruct (decide (k = key)) as [-> | Hk]; [by intros [= ->] |].
  intros Hget. by rewrite IH.
Qed.

Lemma getField_None {B : Type} (key : string) (fields : list (string * B)) :
  getField key fields = None ↔ key ∉ fields.*1.
Proof.
  induction fields as [|[k w] fields IH]; simpl.
  - split; [intros _; apply not_elem_of_nil | done].
  - rewrite not_elem_of_cons. destruct (decide (k = key)) as [-> | Hk].
    + split; [done | by intros [? _]].
    + rewrite IH. split; [intros ?; by split | by intros [_ ?]].
Qed.

Lemma assignField_new {B : Type} (key : string) (v : B) (fields : list (string * B)) :
  key ∉ fields.*1 → assignField key v fields = (fields ++ [(key, v)])%list.
Proof.
  induction fields as [|[k w] fields IH]; simpl; [done |].
  rewrite not_elem_of_cons. intros [Hne Hnot].
  rewrite decide_False by done. by rewrite IH.
Qed.

Lemma getField_elem_of {B : Type} (key : string) (v : B) (fields : list (string * B)) :
  NoDup (fields.*1) → (key, v) ∈ fields → getField key fields = Some v.
Proof.
  induction fields as [|[k w] fields IH]; simpl.
  - by intros _ ?%elem_of_nil.
  - intros [Hk Hnd]%NoDup_cons [[= -> ->] | Hin]%elem_of_cons.
    + by rewrite decide_True.
    + rewrite decide_False; [by apply IH |].
      intros ->. apply Hk. apply list_elem_of_fmap. by exists (key, v).
Qed.

Lemma getField_Some_elem_of {B : Type} (key : string) (v : B) (fields : list (string * B)) :
  getField key fields = Some v → (key, v) ∈ fields.
Proof.
  induction fields as [|[k w] fields IH]; simpl; [done |].
  destruct (decide (k = key)) as [-> | Hk].
  - intros [= ->]. by apply elem_of_cons; left.
  - intros Hget. apply elem_of_cons; right. by apply IH.
Qed.

Lemma proto_is_member : "__proto__" ∈ objectPrototypeMembers.
Proof.
  unfold objectPrototypeMembers. do 10 (apply elem_of_cons; right).
  apply elem_of_cons; by left.
Qed.

(** Assignment through [Object.assign]. *)
Lemma getField_setField_ne {B : Type} (key other : string) (v : B)
    (fields : list (string * B)) :
  key ≠ other → getField other (setField key v fields) = getField other fields.
Proof.
  intros Hne. unfold setField.
  destruct (getField key fields); [by apply getField_assignField_ne |].
  destruct (decide (key = "__proto__")); [done | by apply getField_assignField_ne].
Qed.

Lemma getField_setField_eq {B : Type} (key : string) (v : B) (fields : list (string * B)) :
  getField key (setField key v fields)
  = match getField key fields with
    | Some _ => Some v
    | None => if decide (key = "__proto__") then None else Some v
    end.
Proof.
  unfold setField. destruct (getField key fields) eqn:Hget.
  - apply getField_assignField_eq.
  - destruct (decide (key = "__proto__")); [done | apply getField_assignField_eq].
Qed.

Lemma setField_same {B : Type} (key : string) (v : B) (fields : list (string * B)) :
  getField key fields = Some v → setField key v fields = fields.
Proof. intros Hget. unfold setField. rewrite Hget. by apply assignField_same. Qed.

Lemma setField_new {B : Type} (key : string) (v : B) (fields : list (string * B)) :
  key ∉ fields.*1 → key ≠ "__proto__" →
  setField key v fields = (fields ++ [(key, v)])%list.
Proof.
  intros Hnot Hne. unfold setField.
  rewrite (proj2 (getField_None key fields) Hnot), decide_False by done.
  by apply assignField_new.
Qed.

Section MergeDeepFacts.
Context {leaf : Type}.
Variable truthy : leaf → bool.
Implicit Types (v target source : @value leaf) (fields : list (string * @value leaf)).

Lemma value_nested_ind (P : @value leaf → Prop) :
  (∀ x, P (Leaf x)) →
  (∀ fields, Forall (λ field, P field.2) fields → P (Obj fields)) →
  ∀ v, P v.
Proof.
  intros Hleaf Hobj. fix IH 1. intros [x | fields]; [apply Hleaf | apply Hobj].
  induction fields as [|[k w] fields IHfields]; constructor; [apply IH | apply IHfields].
Qed.

Lemma wellFormed_Obj fields :
  wellFormed (Obj fields)
  ↔ NoDup (fields.*1) ∧ Forall (λ field, wellFormed field.2) fields.
Proof.
  simpl. apply and_iff_compat_l.
  induction fields as [|[k w] fields IH]; simpl.
  - split; [intros _; constructor | done].
  - rewrite Forall_cons, IH. done.
Qed.

Lemma everyKey_Obj (P : string → Prop) fields :
  everyKey P (Obj fields) ↔ Forall (λ field, P field.1 ∧ everyKey P field.2) fields.
Proof.
  simpl. induction fields as [|[k w] fields IH]; simpl.
  - split; [intros _; constructor | done].
  - rewrite Forall_cons, IH. simpl. tauto.
Qed.

Lemma ordinary_key fields (key : string) v :
  ordinary (Obj fields) → getField key fields = Some v →
  key ≠ "__proto__" ∧ ordinary v.
Proof.
  intros Hord Hget. apply everyKey_Obj in Hord. rewrite Forall_forall in Hord.
  exact (Hord _ (getField_Some_elem_of _ _ _ Hget)).
Qed.

Lemma merge_Leaf_target (x : leaf) source : merge truthy (Leaf x) source = Leaf x.
Proof. by destruct source. Qed.

Lemma merge_Obj targetFields sourceFields :
  merge truthy (Obj targetFields) (Obj sourceFields)
  = Obj (mergeFieldsWith truthy (merge truthy) sourceFields targetFields).
Proof. reflexivity. Qed.

Lemma merge_truthy target source :
  truthyValue truthy target = true → truthyValue truthy (merge truthy target source) = true.
Proof. by destruct source, target. Qed.

(** One turn of the loop touches the property it is about and no other. *)
Lemma mergeProperty_frame (k key : string) v targetFields :
  k ≠ key →
  getField key (mergeProperty truthy (merge truthy) k v targetFields)
  = getField key targetFields.
Proof.
  intros Hne. unfold mergeProperty.
  destruct v as [x | nested]; [by apply getField_setField_ne |].
  destruct (readField k targetFields) as [current | |]; [| done |].
  - destruct (truthyValue truthy current); by apply getField_assignField_ne.
  - by apply getField_assignField_ne.
Qed.

Lemma mergeProperty_at (key : string) v targetFields :
  getField key (mergeProperty truthy (merge truthy) key v targetFields)
  = mergedAt truthy key v (getField key targetFields).
Proof.
  unfold mergeProperty, mergedAt, readField, inherited.
  destruct v as [x | nested]; [apply getField_setField_eq |].
  destruct (getField key targetFields) as [current |] eqn:Hget.
  - destruct (truthyValue truthy current); apply getField_assignField_eq.
  - case_bool_decide; [exact Hget | apply getField_assignField_eq].
Qed.

(** The property stored under [key] once the loop is over. *)
Lemma getField_mergeFields sourceFields targetFields (key : string) :
  NoDup (sourceFields.*1) →
  getField key (mergeFieldsWith truthy (merge truthy) sourceFields targetFields)
  = match getField key sourceFields with
    | None => getField key targetFields
    | Some v => mergedAt truthy key v (getField key targetFields)
    end.
Proof.
  revert targetFields.
  induction sourceFields as [|[k w] rest IH]; intros targetFields; simpl; [done |].
  intros [Hk Hnd]%NoDup_cons. rewrite (IH _ Hnd).
  destruct (decide (k = key)) as [-> | Hne].
  - apply getField_None in Hk. rewrite Hk. apply mergeProperty_at.
  - by rewrite (mergeProperty_frame k key w targetFields Hne).
Qed.

Lemma mergedAt_keeps (key : string) v (current : option (@value leaf)) :
  is_Some current → is_Some (mergedAt truthy key v current).
Proof. intros [w ->]. destruct v; simpl; by eexists. Qed.

Lemma mergeFields_keeps sourceFields targetFields (key : string) :
  is_Some (getField key targetFields) →
  is_Some (getField key (mergeFieldsWith truthy (merge truthy) sourceFields targetFields)).
Proof.
  revert targetFields.
  induction sourceFields as [|[k w] rest IH]; intros targetFields Hsome; simpl; [done |].
  apply IH. destruct (decide (k = key)) as [-> | Hne].
  - rewrite mergeProperty_at. by apply mergedAt_keeps.
  - by rewrite mergeProperty_frame.
Qed.

(** One source without a [__proto__] property merged into an object,
    property by property.  A property the source lacks is left alone.  A
    source property that is not an object (a primitive, [null], an array)
    becomes the target's.  A source property that is an object is merged
    into the target's own value there, or into a new empty object when
    that value is falsy or when the target has nothing under the name, own
    or inherited; under the name of a member of [Object.prototype], and
    with no own property there, it is dropped. *)
Theorem merge_property targetFields sourceFields (key : string) :
  NoDup (sourceFields.*1) →
  ordinary (Obj sourceFields) →
  ∃ fields,
    merge truthy (Obj targetFields) (Obj sourceFields) = Obj fields
    ∧ (getField key sourceFields = None → getField key fields = getField key targetFields)
    ∧ (∀ x, getField key sourceFields = Some (Leaf x) → getField key fields = Some (Leaf x))
    ∧ (∀ nested, getField key sourceFields = Some (Obj nested) →
         match readField key targetFields with
         | OwnValue current =>
             getField key fields
             = Some (merge truthy
                       (if truthyValue truthy current then current else Obj [])
                       (Obj nested))
         | InheritedMember => getField key fields = None
         | Undefined =>
             getField key fields = Some (merge truthy (Obj []) (Obj nested))
         end).
Proof.
  intros Hnd Hord. eexists. split; [apply merge_Obj |].
  rewrite (getField_mergeFields _ _ _ Hnd).
  split; [by intros -> |]. split.
  - intros x Hget. destruct (ordinary_key _ _ _ Hord Hget) as [Hne _].
    rewrite Hget. unfold mergedAt. rewrite decide_False by done.
    by destruct (getField key targetFields).
  - intros nested ->. unfold mergedAt, readField, inherited.
    destruct (getField key targetFields) as [current |]; [done |].
    by case_bool_decide.
Qed.

(** A truthy value of the target that is not an object (a non-empty
    string, a non-zero number, [true], an array) is never replaced by an
    object of the source: the nested call finds no object to merge into,
    and the source's object is dropped. *)
Theorem merge_keeps_truthy_leaf targetFields sourceFields (key : string) (x : leaf)
    (nested : list (string * @value leaf)) :
  NoDup (sourceFields.*1) →
  ordinary (Obj sourceFields) →
  getField key targetFields = Some (Leaf x) →
  truthy x = true →
  getField key sourceFields = Some (Obj nested) →
  ∃ fields,
    merge truthy (Obj targetFields) (Obj sourceFields) = Obj fields
    ∧ getField key fields = Some (Leaf x).
Proof.
  intros Hnd _ Htarget Hx Hsource. eexists. split; [apply merge_Obj |].
  rewrite (getField_mergeFields _ _ _ Hnd), Hsource, Htarget. simpl. by rewrite Hx.
Qed.

Lemma mergeFields_new sourceFields targetFields :
  Forall (λ field, (field.1 ∉ objectPrototypeMembers)
                   ∧ (merge truthy (Obj []) field.2 = field.2 ∨ ∃ x, field.2 = Leaf x))
    sourceFields →
  NoDup (targetFields.*1 ++ sourceFields.*1)%list →
  mergeFieldsWith truthy (merge truthy) sourceFields targetFields
  = (targetFields ++ sourceFields)%list.
Proof.
  revert targetFields.
  induction sourceFields as [|[k w] rest IH]; intros targetFields Hall Hnd; simpl.
  - by rewrite app_nil_r.
  - apply Forall_cons in Hall as [[Hplain Hw] Hall]. simpl in Hplain, Hw.
    assert (Hk : k ∉ targetFields.*1).
    { apply NoDup_app in Hnd as (_ & Hdisj & _). intros Hin.
      apply (Hdisj k Hin). simpl. by apply elem_of_cons; left. }
    assert (Hproto : k ≠ "__proto__").
    { intros ->. apply Hplain, proto_is_member. }
    assert (Hstep : mergeProperty truthy (merge truthy) k w targetFields
                    = (targetFields ++ [(k, w)])%list).
    { unfold mergeProperty, readField, inherited.
      destruct w as [x | nested]; [by apply setField_new |].
      rewrite (proj2 (getField_None k targetFields) Hk).
      rewrite bool_decide_eq_false_2 by done.
      destruct Hw as [-> | [x ?]]; [by apply assignField_new | done]. }
    rewrite Hstep, IH; [by rewrite <- app_assoc | done |].
    rewrite fmap_app. simpl. rewrite <- app_assoc. exact Hnd.
Qed.

Lemma merge_into_empty_wf v :
  wellFormed v → plainNames v →
  match v with
  | Leaf _ => True
  | Obj _ => merge truthy (Obj []) v = v
  end.
Proof.
  induction v as [x | fields IH] using value_nested_ind; [done |].
  intros [Hnd Hwf]%wellFormed_Obj Hplain%everyKey_Obj.
  rewrite merge_Obj. f_equal.
  rewrite mergeFields_new; [done | | done].
  apply Forall_forall. intros [k w] Hin.
  rewrite Forall_forall in IH, Hwf, Hplain.
  specialize (IH _ Hin). specialize (Hwf _ Hin). destruct (Hplain _ Hin) as [Hk Hw].
  simpl in *. split; [exact Hk |].
  destruct w as [x | nested]; [right; by exists x | left].
  by apply IH.
Qed.

(** Merging an object into a new empty object gives an equal object (a
    copy, with the same properties in the same order at every depth),
    provided no property of it, at any depth, is named after a member of
    [Object.prototype]: an object stored under such a name would be
    dropped, and [__proto__] would go to the setter. *)
Theorem merge_into_empty_copies sourceFields :
  wellFormed (Obj sourceFields) →
  plainNames (Obj sourceFields) →
  mergeDeep truthy (Obj []) [Obj sourceFields] = Obj sourceFields.
Proof. intros Hwf Hplain. exact (merge_into_empty_wf (Obj sourceFields) Hwf Hplain). Qed.

Lemma mergeFields_fixed sourceFields targetFields :
  (∀ k w, (k, w) ∈ sourceFields →
     mergeProperty truthy (merge truthy) k w targetFields = targetFields) →
  mergeFieldsWith truthy (merge truthy) sourceFields targetFields = targetFields.
Proof.
  induction sourceFields as [|[k w] rest IH]; intros Hfix; simpl; [done |].
  rewrite (Hfix k w) by (by apply elem_of_cons; left).
  apply IH. intros k' w' Hin. apply Hfix. by apply elem_of_cons; right.
Qed.

Lemma merge_idempotent_wf source :
  wellFormed source → ∀ target,
  merge truthy (merge truthy target source) source = merge truthy target source.
Proof.
  induction source as [x | sourceFields IH] using value_nested_ind; intros Hwf target.
  - by destruct target.
  - destruct target as [x | targetFields]; [done |].
    apply wellFormed_Obj in Hwf as [Hnd Hwf].
    rewrite !merge_Obj. f_equal.
    set (merged := mergeFieldsWith truthy (merge truthy) sourceFields targetFields).
    apply mergeFields_fixed. intros k w Hin.
    pose proof (getField_elem_of k w sourceFields Hnd Hin) as Hget.
    pose proof (getField_mergeFields sourceFields targetFields k Hnd) as Hmerged.
    fold merged in Hmerged. rewrite Hget in Hmerged.
    rewrite Forall_forall in IH, Hwf. specialize (IH _ Hin). specialize (Hwf _ Hin).
    simpl in IH, Hwf.
    unfold mergeProperty, readField, inherited. unfold mergedAt in Hmerged.
    destruct w as [x | nested].
    + destruct (getField k targetFields) as [current |].
      * by apply setField_same.
      * destruct (decide (k = "__proto__")) as [-> | Hne]; [| by apply setField_same].
        unfold setField. by rewrite Hmerged.
    + destruct (getField k targetFields) as [current |].
      * set (u := merge truthy (if truthyValue truthy current then current else Obj [])
                    (Obj nested)) in *.
        assert (Hu : truthyValue truthy u = true).
        { apply merge_truthy. by destruct (truthyValue truthy current) eqn:Hc. }
        assert (Hagain : merge truthy u (Obj nested) = u) by apply (IH Hwf).
        rewrite Hmerged, Hu, Hagain. by apply assignField_same.
      * case_bool_decide as Hmember; [by rewrite Hmerged |].
        set (u := merge truthy (Obj []) (Obj nested)) in *.
        assert (Hu : truthyValue truthy u = true) by done.
        assert (Hagain : merge truthy u (Obj nested) = u) by apply (IH Hwf).
        rewrite Hmerged, Hu, Hagain. by apply assignField_same.
Qed.

(** Merging the same source, one without a [__proto__] property, a second
    time changes nothing. *)
Theorem merge_idempotent target source :
  wellFormed source →
  ordinary source →
  mergeDeep truthy target [source; source] = mergeDeep truthy target [source].
Proof. intros Hwf _. simpl. by apply merge_idempotent_wf. Qed.

Lemma merge_object_keeps targetFields source :
  ∃ fields, merge truthy (Obj targetFields) source = Obj fields
    ∧ ∀ key, is_Some (getField key targetFields) → is_Some (getField key fields).
Proof.
  destruct source as [x | sourceFields].
  - exists targetFields. by split.
  - eexists. split; [apply merge_Obj |]. intros key. apply mergeFields_keeps.
Qed.

Lemma mergeDeep_object_keeps (sources : list (@value leaf)) targetFields :
  ∃ fields,
    mergeDeep truthy (Obj targetFields) sources = Obj fields
    ∧ ∀ key, is_Some (getField key targetFields) → is_Some (getField key fields).
Proof.
  revert targetFields. induction sources as [|source sources IH]; intros targetFields.
  - exists targetFields. by split.
  - destruct (merge_object_keeps targetFields source) as (mid & Hmid & Hkeys).
    destruct (IH mid) as (fields & Hfields & Hkeys').
    exists fields. split; [simpl; by rewrite Hmid |].
    intros key Hkey. by apply Hkeys', Hkeys.
Qed.

Lemma mergeDeep_Leaf_target (x : leaf) (sources : list (@value leaf)) :
  mergeDeep truthy (Leaf x) sources = Leaf x.
Proof.
  induction sources as [|source sources IH]; [done |].
  simpl. rewrite merge_Leaf_target. apply IH.
Qed.

(** [mergeDeep] never takes a property away.  A target that is not an
    object comes back as it was, whatever the sources.  For sources
    without [__proto__] properties, an object target comes back as an
    object that still has every property it had; and as the sources are
    applied from left to right, a primitive in the last source is what the
    result holds. *)
Theorem mergeDeep_keeps_properties (sources : list (@value leaf)) :
  (∀ x, mergeDeep truthy (Leaf x) sources = Leaf x)
  ∧ (Forall ordinary sources →
     (∀ targetFields, ∃ fields,
        mergeDeep truthy (Obj targetFields) sources = Obj fields
        ∧ ∀ key, is_Some (getField key targetFields) → is_Some (getField key fields))
     ∧ (∀ targetFields lastFields key x,
          NoDup (lastFields.*1) →
          ordinary (Obj lastFields) →
          getField key lastFields = Some (Leaf x) →
          ∃ fields,
            mergeDeep truthy (Obj targetFields) (sources ++ [Obj lastFields])%list
            = Obj fields
            ∧ getField key fields = Some (Leaf x))).
Proof.
  split; [intros x; apply mergeDeep_Leaf_target |].
  intros _. split; [apply mergeDeep_object_keeps |].
  intros targetFields lastFields key x Hnd Hord Hget.
  destruct (mergeDeep_object_keeps sources targetFields) as (mid & Hmid & _).
  destruct (ordinary_key _ _ _ Hord Hget) as [Hne _].
  unfold mergeDeep in *. rewrite foldl_app, Hmid. simpl.
  eexists. split; [apply merge_Obj |].
  rewrite (getField_mergeFields _ _ _ Hnd), Hget. unfold mergedAt.
  rewrite decide_False by done. by destruct (getField key mid).
Qed.

End MergeDeepFacts.

(** Leaves for the examples: numbers, falsy when zero. *)
Lemma merge_property_witness :
  let truthy := λ n : Z, negb (n =? 0)%Z in
  let target := [("name", Leaf 1%Z); ("theme", Obj [("dark", Leaf 1%Z)])] in
  let source := [("theme", Obj [("accent", Leaf 7%Z)]); ("name", Leaf 2%Z);
                 ("toString", Obj [("radix", Leaf 16%Z)])] in
  NoDup (source.*1)
  ∧ ordinary (Obj source)
  ∧ ∃ fields,
      merge truthy (Obj target) (Obj source) = Obj fields
      ∧ getField "name" fields = Some (Leaf 2%Z)
      ∧ getField "toString" fields = None.
Proof.
  intros truthy target source.
  assert (Hnd : NoDup (source.*1)) by compute_done.
  assert (Hord : ordinary (Obj source)) by (simpl; repeat split; done).
  split; [exact Hnd |]. split; [exact Hord |].
  destruct (merge_property truthy target source "toString" Hnd Hord)
    as (fields & Heq & _ & _ & Hobject).
  exists fields. split; [exact Heq |]. split.
  - destruct (merge_property truthy target source "name" Hnd Hord)
      as (fields' & Heq' & _ & Hleaf & _).
    rewrite Heq in Heq'. injection Heq' as <-. by apply Hleaf.
  - exact (Hobject [("radix", Leaf 16%Z)] eq_refl).
Defined.

Lemma merge_keeps_truthy_leaf_witness :
  let truthy := λ n : Z, negb (n =? 0)%Z in
  let target := [("theme", Leaf 5%Z)] in
  let source := [("theme", Obj [("accent", Leaf 7%Z)])] in
  NoDup (source.*1)
  ∧ ordinary (Obj source)
  ∧ getField "theme" target = Some (Leaf 5%Z)
  ∧ truthy 5%Z = true
  ∧ getField "theme" source = Some (Obj [("accent", Leaf 7%Z)])
  ∧ ∃ fields,
      merge truthy (Obj target) (Obj source) = Obj fields
      ∧ getField "theme" fields = Some (Leaf 5%Z).
Proof.
  intros truthy target source.
  assert (Hnd : NoDup (source.*1)) by compute_done.
  assert (Hord : ordinary (Obj source)) by (simpl; repeat split; done).
  split; [exact Hnd |]. split; [exact Hord |].
  split; [reflexivity |]. split; [reflexivity |]. split; [reflexivity |].
  exact (merge_keeps_truthy_leaf truthy target source "theme" 5%Z [("accent", Leaf 7%Z)]
           Hnd Hord eq_refl eq_refl eq_refl).
Defined.

Lemma merge_into_empty_copies_witness :
  let truthy := λ n : Z, negb (n =? 0)%Z in
  let source := [("theme", Obj [("accent", Leaf 7%Z); ("dark", Leaf 0%Z)]); ("name", Leaf 2%Z)] in
  wellFormed (Obj source)
  ∧ plainNames (Obj source)
  ∧ mergeDeep truthy (Obj []) [Obj source] = Obj source.
Proof.
  intros truthy source.
  assert (Hwf : wellFormed (Obj source)).
  { simpl. split; [compute_done |]. split; [| done]. split; [compute_done | done]. }
  assert (Hplain : plainNames (Obj source)).
  { simpl. repeat split; try done; compute_done. }
  split; [exact Hwf |]. split; [exact Hplain |].
  exact (merge_into_empty_copies truthy source Hwf Hplain).
Defined.

Lemma merge_idempotent_witness :
  let truthy := λ n : Z, negb (n =? 0)%Z in
  let target := Obj [("name", Leaf 1%Z); ("theme", Leaf 0%Z)] in
  let source := Obj [("theme", Obj [("accent", Leaf 7%Z)]); ("name", Leaf 2%Z)] in
  wellFormed source
  ∧ ordinary source
  ∧ mergeDeep truthy target [source; source] = mergeDeep truthy target [source].
Proof.
  intros truthy target source.
  assert (Hwf : wellFormed source).
  { simpl. split; [compute_done |]. split; [| done]. split; [compute_done | done]. }
  assert (Hord : ordinary source) by (simpl; repeat split; done).
  split; [exact Hwf |]. split; [exact Hord |].
  exact (merge_idempotent truthy target source Hwf Hord).
Defined.

(** ** Cancelable promises *)

Section MakeCancelableFacts.
Context {Val Err : Type}.
Implicit Types (c : @cancelable Val Err) (trace more : list (@cancelableEvent Val Err)).

Lemma cancelableStep_settled (e : @cancelableEvent Val Err) c :
  wrappedPromise c ≠ Pending →
  wrappedPromise (cancelableStep e c) = wrappedPromise c.
Proof.
  destruct c as [cancelled [| val | reason]]; [done | |];
    intros _; destruct e, cancelled; done.
Qed.

Lemma cancelableRun_settled more c :
  wrappedPromise c ≠ Pending →
  wrappedPromise (cancelableRun more c) = wrappedPromise c.
Proof.
  revert c. induction more as [|e more IH]; intros c Hc; [done |].
  simpl. rewrite IH; rewrite cancelableStep_settled; done.
Qed.

Lemma cancelableStep_cancelled (e : @cancelableEvent Val Err) c :
  hasCanceled c = true →
  hasCanceled (cancelableStep e c) = true
  ∧ (wrappedPromise c = Pending →
     wrappedPromise (cancelableStep e c) = Pending
     ∨ wrappedPromise (cancelableStep e c) = RejectedWith Cancelled).
Proof.
  destruct c as [cancelled state]. simpl. intros ->.
  destruct e; simpl; (split; [by destruct state |]); intros ->; auto.
Qed.

Lemma cancelableRun_cancelled more c :
  hasCanceled c = true → wrappedPromise c = Pending →
  wrappedPromise (cancelableRun more c) = Pending
  ∨ wrappedPromise (cancelableRun more c) = RejectedWith Cancelled.
Proof.
  revert c. induction more as [|e more IH]; intros c Hc Hp; [by left |].
  simpl. destruct (cancelableStep_cancelled e c Hc) as [Hc' Hstep].
  destruct (Hstep Hp) as [Hp' | Hrej]; [by apply IH |].
  right. rewrite cancelableRun_settled; [done | by rewrite Hrej].
Qed.

(** Once [cancel] has been called on a promise that is still pending, the
    wrapped promise never fulfils: it stays pending or rejects with
    ["Cancelled"], however the promise settles.  A wrapped promise that
    has settled keeps its outcome: a later [cancel] does not change it.
    Without [cancel] the wrapped promise settles as the promise does. *)
Theorem makeCancelable_cancel trace more :
  let c := cancelableRun trace makeCancelable in
  (hasCanceled c = true → wrappedPromise c = Pending →
     wrappedPromise (cancelableRun more c) = Pending
     ∨ wrappedPromise (cancelableRun more c) = RejectedWith Cancelled)
  ∧ (wrappedPromise c ≠ Pending →
     wrappedPromise (cancelableRun more c) = wrappedPromise c)
  ∧ (∀ val, wrappedPromise (cancelableRun (PromiseFulfils val :: more) makeCancelable)
            = FulfilledWith val)
  ∧ (∀ error, wrappedPromise (cancelableRun (PromiseRejects error :: more) makeCancelable)
              = RejectedWith (OwnError error))
  ∧ (∀ val, wrappedPromise
              (cancelableRun (CallCancel :: PromiseFulfils val :: more) makeCancelable)
            = RejectedWith Cancelled).
Proof.
  intros c. split; [apply cancelableRun_cancelled |].
  split; [apply cancelableRun_settled |].
  repeat split; intros; simpl; by rewrite cancelableRun_settled.
Qed.

End MakeCancelableFacts.
